(** * The Ape-X actor of [distributed_rl.ape_x.actor]

    A shallow embedding of [Actor] (actor.py): the frame preprocessing, the
    frame stack, the 4-fold action repetition, the n-step window, the local
    replay memory with its publish step, and the parameter pull.  Python's
    exceptions are an error monad, the deques, the Redis server and the
    random sources are explicit state. *)

From Stdlib Require Import ZArith List Lia QArith Qround Reals Lra Permutation.
From stdpp Require Import base gmap strings list.

(** ** Python runtime *)

(** The exceptions the modelled code can raise. *)
Inductive PyExn := IndexError | ValueError | ZeroDivisionError | OverflowError.

(** A computation either raises or returns. *)
Definition Py (A : Type) : Type := PyExn + A.

Definition raise {A : Type} (e : PyExn) : Py A := inl e.

(** The computation does not raise. *)
Definition returns {A : Type} (c : Py A) : Prop := exists x, c = inr x.

#[global] Instance Py_ret : MRet Py := fun A x => inr x.
#[global] Instance Py_bind : MBind Py :=
  fun A B f c => match c with inl e => inl e | inr x => f x end.

(** [range(n)]: empty when [n] is not positive. *)
Definition py_range (n : Z) : list Z := map Z.of_nat (seq 0 (Z.to_nat n)).

(** [l[i]]: a negative index counts from the end, anything outside
    [-len(l) .. len(l)-1] raises [IndexError]. *)
Definition py_index {A : Type} (l : list A) (i : Z) : Py A :=
  let n := Z.of_nat (length l) in
  let j := if (i <? 0)%Z then (i + n)%Z else i in
  if ((0 <=? j) && (j <? n))%Z
  then match l !! Z.to_nat j with
       | Some x => mret x
       | None => raise IndexError
       end
  else raise IndexError.

(** [[f(i) for i in idx]] where [f] may raise. *)
Fixpoint py_comprehension {A B : Type} (f : A -> Py B) (idx : list A) : Py (list B) :=
  match idx with
  | [] => mret []
  | i :: rest => x ← f i; xs ← py_comprehension f rest; mret (x :: xs)
  end.

(** ** [collections.deque(maxlen=n)] *)

Record deque (A : Type) := Deque { items : list A; maxlen : nat }.
Arguments Deque {A} _ _.
Arguments items {A} _.
Arguments maxlen {A} _.

Definition deque_new {A : Type} (n : nat) : deque A := Deque [] n.

(** [d.append(x)]: the item goes to the right end, and when that makes the
    deque longer than [maxlen] the leftmost item is dropped. *)
Definition deque_append {A : Type} (d : deque A) (x : A) : deque A :=
  let l := items d ++ [x] in
  Deque (if (maxlen d <? length l)%nat then drop 1 l else l) (maxlen d).

Definition deque_clear {A : Type} (d : deque A) : deque A := Deque [] (maxlen d).

Definition deque_len {A : Type} (d : deque A) : nat := length (items d).

(** [d[i]] *)
Definition deque_index {A : Type} (d : deque A) (i : Z) : Py A := py_index (items d) i.

(** ** Floating-point numbers

    The arithmetic of Python floats, NumPy arrays and one-element torch
    tensors is kept abstract: the actor only combines numbers with the
    operations below, and nothing proved about the control flow depends on
    how they round. *)
Class PyFloat (F : Type) := {
  of_int : Z -> F;            (* int operand promoted to float *)
  flit : Q -> F;              (* a decimal literal such as [0.4] *)
  fadd : F -> F -> F;
  fsub : F -> F -> F;
  fmul : F -> F -> F;
  fdiv : F -> F -> F;
  fpow : F -> F -> F;         (* [x ** y] *)
  fltb : F -> F -> bool;      (* [x < y] *)
  f32 : F -> F;               (* cast to [np.float32] *)
  of_int_raises : Z -> bool;  (* the int is too large to convert to float *)
  is_zero : F -> bool;        (* [x == 0.0] *)
  fpow_error : F -> F -> option PyExn;  (* what [x ** y] raises, if it does *)
}.

(** The operations of Python floats that can raise: the promotion of an
    int operand ([OverflowError]), the division ([ZeroDivisionError]) and
    the power ([OverflowError], or [ZeroDivisionError] for a zero base
    with a negative exponent). *)
Definition py_float {F : Type} `{PyFloat F} (n : Z) : Py F :=
  if of_int_raises n then raise OverflowError else mret (of_int n).

Definition py_truediv {F : Type} `{PyFloat F} (x y : F) : Py F :=
  if is_zero y then raise ZeroDivisionError else mret (fdiv x y).

Definition py_pow {F : Type} `{PyFloat F} (x y : F) : Py F :=
  match fpow_error x y with
  | Some e => raise e
  | None => mret (fpow x y)
  end.

Definition fle {F : Type} `{PyFloat F} (x y : F) : Prop := fltb y x = false.

(** [max(a, b)] and [min(a, b)] of the builtins: the first argument wins a tie. *)
Definition py_max {F : Type} `{PyFloat F} (a b : F) : F := if fltb a b then b else a.
Definition py_min {F : Type} `{PyFloat F} (a b : F) : F := if fltb b a then b else a.

(** [sum(xs)]: starts from the int [0] and adds from the left. *)
Definition py_sum {F : Type} `{PyFloat F} (xs : list F) : F :=
  fold_left fadd xs (of_int 0).

(** Exact rational arithmetic, used to run the model on examples.  A
    fractional exponent is truncated to its integer part; nothing
    overflows. *)
#[global] Instance Q_float : PyFloat Q := {|
  of_int := inject_Z;
  flit := fun q => q;
  fadd := Qplus;
  fsub := Qminus;
  fmul := Qmult;
  fdiv := Qdiv;
  fpow := fun x y => Qpower x (Qfloor y);
  fltb := fun x y => negb (Qle_bool y x);
  f32 := fun x => x;
  of_int_raises := fun _ => false;
  is_zero := fun x => Qeq_bool x 0;
  fpow_error := fun x y =>
    if Qeq_bool x 0 && (Qfloor y <? 0)%Z then Some ZeroDivisionError else None;
|}.

(** Real arithmetic.  [**] is the real power [Rpower], which is the power
    function for a positive base: the exploration schedule only raises
    [EPS_BASE = 0.4]. *)
#[global] Instance R_float : PyFloat R := {|
  of_int := IZR;
  flit := Q2R;
  fadd := Rplus;
  fsub := Rminus;
  fmul := Rmult;
  fdiv := Rdiv;
  fpow := Rpower;
  fltb := fun x y => if Rlt_dec x y then true else false;
  f32 := fun x => x;
  of_int_raises := fun _ => false;
  is_zero := fun x => if Req_dec_T x 0 then true else false;
  fpow_error := fun _ _ => None;
|}.

(** ** Random sources

    [np.random] and [random] are one entropy source that hands out raw
    natural numbers. *)
Class Entropy (Rng : Type) := { draw : Rng -> N * Rng }.

(** [np.random.randint(low, high)]: an integer of the half-open interval
    [[low, high)]; [ValueError] when the interval is empty. *)
Definition randint {Rng : Type} `{Entropy Rng} (low high : Z) (g : Rng) : Py (Z * Rng) :=
  if (low <? high)%Z
  then let '(r, g') := draw g in mret ((low + Z.of_N r mod (high - low))%Z, g')
  else raise ValueError.

(** Picks [k] items without replacement: each pick takes the item at a
    random position of what is left. *)
Fixpoint pick_distinct {Rng A : Type} `{Entropy Rng} (k : nat) (pool : list A) (g : Rng)
  : list A * Rng :=
  match k with
  | O => ([], g)
  | S k' =>
      let '(r, g') := draw g in
      let j := (N.to_nat r mod length pool)%nat in
      match pool !! j with
      | None => ([], g')
      | Some x =>
          let '(xs, g'') := pick_distinct k' (take j pool ++ drop (S j) pool) g' in
          (x :: xs, g'')
      end
  end.

(** [random.sample(population, k)]: [ValueError] when [k] is negative or
    larger than the population. *)
Definition random_sample {Rng A : Type} `{Entropy Rng} (population : list A) (k : Z) (g : Rng)
  : Py (list A * Rng) :=
  if ((k <? 0) || (Z.of_nat (length population) <? k))%Z
  then raise ValueError
  else mret (pick_distinct (Z.to_nat k) population g).

(** A counter as entropy source, used to run the model on examples. *)
#[global] Instance counter_entropy : Entropy N := {| draw := fun n => (n, N.succ n) |}.

(** ** Data *)

(** A grayscale frame: the [uint8] pixels of a 210x160 array, row by row. *)
Definition Frame : Type := list Byte.byte.

(** [np.zeros(shape, dtype=np.uint8)] with [n] entries. *)
Definition np_zeros (n : N) : Frame := repeat Byte.x00 (N.to_nat n).
Arguments np_zeros : simpl never.

(** An array of shape (210, 160, 2), as its two channels [[:,:,0]] and [[:,:,1]]. *)
Definition Screen : Type := (Frame * Frame)%type.

(** Modelled from the spec: [utils.Transition] (libs/utils.py is not among
    the sources), the record of section 3 with the fields in the order the
    actor passes them: state, action, reward, next_state, done.  A state is
    the list of the tiles of the frame stack; one-element tensors stand for
    their element. *)
Record Transition (F : Type) := mkTransition {
  state : list (list F);
  action : Z;
  reward : F;
  next_state : list (list F);
  done : bool;
}.
Arguments mkTransition {F} _ _ _ _ _.
Arguments state {F} _.
Arguments action {F} _.
Arguments reward {F} _.
Arguments next_state {F} _.
Arguments done {F} _.

(** Modelled from the spec: [replay_memory.ReplayMemory]
    (libs/replay_memory.py is not among the sources).  Section 3: a
    "bounded queue of finalized n-step Transitions, capacity C"; section
    4.7: "draw a sample of exactly B Transitions from the buffer" and "the
    entire LocalReplayBuffer is cleared".  A push into a full queue drops
    the oldest entry. *)
Record ReplayMemory (F : Type) := mkReplayMemory {
  capacity : nat;
  memory : list (Transition F);
}.
Arguments mkReplayMemory {F} _ _.
Arguments capacity {F} _.
Arguments memory {F} _.

Definition rm_new {F : Type} (c : nat) : ReplayMemory F := mkReplayMemory c [].

Definition rm_push {F : Type} (m : ReplayMemory F) (x : Transition F) : ReplayMemory F :=
  let l := memory m ++ [x] in
  mkReplayMemory (capacity m) (if (capacity m <? length l)%nat then drop 1 l else l).

Definition rm_len {F : Type} (m : ReplayMemory F) : Z := Z.of_nat (length (memory m)).

Definition rm_sample {F Rng : Type} `{Entropy Rng} (m : ReplayMemory F) (batch_size : Z) (g : Rng)
  : Py (list (Transition F) * Rng) :=
  random_sample (memory m) batch_size g.

Definition rm_clear {F : Type} (m : ReplayMemory F) : ReplayMemory F :=
  mkReplayMemory (capacity m) [].

(** The policy network as far as the actor touches it: its parameters (the
    state dict) and the train/eval flag. *)
Record Net (StateDict : Type) := mkNet { params : StateDict; training : bool }.
Arguments mkNet {StateDict} _ _.
Arguments params {StateDict} _.
Arguments training {StateDict} _.

(** [net.eval()] *)
Definition net_eval {StateDict : Type} (n : Net StateDict) : Net StateDict :=
  mkNet (params n) false.

(** [net.load_state_dict(sd)] *)
Definition load_state_dict {StateDict : Type} (n : Net StateDict) (sd : StateDict) : Net StateDict :=
  mkNet sd (training n).

(** The Redis server: string values and lists, by key. *)
Record Redis := mkRedis {
  kv : gmap string (list Byte.byte);
  queues : gmap string (list (list Byte.byte));
}.

(** [GET key] *)
Definition redis_get (r : Redis) (key : string) : option (list Byte.byte) := kv r !! key.

(** [RPUSH key value] *)
Definition redis_rpush (r : Redis) (key : string) (value : list Byte.byte) : Redis :=
  mkRedis (kv r) (<[key := default [] (queues r !! key) ++ [value]]> (queues r)).

(** ** Collaborators *)

(** The gym environment: [reset()], [step(action)] (observation and info
    are dropped by the actor) and [ale.getScreenGrayscale(buf)], which
    overwrites the whole of [buf]. *)
Class GymEnv (Env F : Type) := {
  env_reset : Env -> Env;
  env_step : Env -> Z -> Env * F * bool;
  getScreenGrayscale : Env -> Frame;
}.

(** Library functions the actor calls: [skimage.transform.resize] with
    [output_shape=(84, 84), anti_aliasing=None, preserve_range=True],
    [utils.epsilon_greedy], the network's [calc_priorities] (already
    squeezed to a list), [utils.dumps] and [utils.loads]. *)
Class Libs (F Rng StateDict : Type) := {
  resize : Frame -> list F;
  epsilon_greedy : list (list F) -> Net StateDict -> F -> Rng -> Z * Rng;
  calc_priorities : Net StateDict -> list (Transition F) -> F -> list F;
  dumps : list (Transition F) * list F -> list Byte.byte;
  loads : list Byte.byte -> StateDict;
}.

(** ** The actor object *)

Record Actor (F Env StateDict : Type) := mkActor {
  _env : Env;
  _actor_no : Z;
  _batch_size : Z;
  _nstep_return : nat;
  _gamma : F;
  _clip : F -> F;
  _target_update : Z;
  _num_total_actors : Z;
  _policy_net : Net StateDict;
  _local_memory : ReplayMemory F;
  _connect : Redis;
  _img_buf : deque (list F);
  no_op_steps : Z;
}.
Arguments mkActor {F Env StateDict} _ _ _ _ _ _ _ _ _ _ _ _ _.
Arguments _env {F Env StateDict} _.
Arguments _actor_no {F Env StateDict} _.
Arguments _batch_size {F Env StateDict} _.
Arguments _nstep_return {F Env StateDict} _.
Arguments _gamma {F Env StateDict} _.
Arguments _clip {F Env StateDict} _.
Arguments _target_update {F Env StateDict} _.
Arguments _num_total_actors {F Env StateDict} _.
Arguments _policy_net {F Env StateDict} _.
Arguments _local_memory {F Env StateDict} _.
Arguments _connect {F Env StateDict} _.
Arguments _img_buf {F Env StateDict} _.
Arguments no_op_steps {F Env StateDict} _.

(** The local variables of [run] that live across loop iterations. *)
Module run.
Record locals (F : Type) := mkLocals {
  state : list (list F);
  step_buffer : deque (Transition F);
  gamma_nsteps : list F;
  sum_rwd : Z;
  n_episode : Z;
  length_epsiode : Z;
  next_grayscreen : Frame;
  eps : F;
  t : Z;
}.
Arguments mkLocals {F} _ _ _ _ _ _ _ _ _.
Arguments state {F} _.
Arguments step_buffer {F} _.
Arguments gamma_nsteps {F} _.
Arguments sum_rwd {F} _.
Arguments n_episode {F} _.
Arguments length_epsiode {F} _.
Arguments next_grayscreen {F} _.
Arguments eps {F} _.
Arguments t {F} _.
End run.

(** The actor process: the object, the frame of [run] and the random source. *)
Record Machine (F Env Rng StateDict : Type) := mkMachine {
  self : Actor F Env StateDict;
  frame : run.locals F;
  rng : Rng;
}.
Arguments mkMachine {F Env Rng StateDict} _ _ _.
Arguments self {F Env Rng StateDict} _.
Arguments frame {F Env Rng StateDict} _.
Arguments rng {F Env Rng StateDict} _.

(** ** The methods of [Actor] *)

Section ActorMethods.
Context {F Env Rng StateDict : Type}.
Context {HF : PyFloat F} {HE : GymEnv Env F} {HR : Entropy Rng} {HL : Libs F Rng StateDict}.

#[local] Abbreviation actor := (Actor F Env StateDict).
#[local] Abbreviation machine := (Machine F Env Rng StateDict).

Definition EPS_BASE : F := flit (4 # 10).
Definition EPS_ALPHA : F := flit 7.

(** The default of the [clip] argument: [lambda x: min(max(-1.0, x), 1.0)]. *)
Definition default_clip (x : F) : F := py_min (py_max (flit (-1)) x) (flit 1).

(** Attribute assignments. *)
Definition set_env (a : actor) (e : Env) : actor :=
  mkActor e (_actor_no a) (_batch_size a) (_nstep_return a) (_gamma a) (_clip a)
    (_target_update a) (_num_total_actors a) (_policy_net a) (_local_memory a)
    (_connect a) (_img_buf a) (no_op_steps a).

Definition set_policy_net (a : actor) (n : Net StateDict) : actor :=
  mkActor (_env a) (_actor_no a) (_batch_size a) (_nstep_return a) (_gamma a) (_clip a)
    (_target_update a) (_num_total_actors a) n (_local_memory a)
    (_connect a) (_img_buf a) (no_op_steps a).

Definition set_local_memory (a : actor) (m : ReplayMemory F) : actor :=
  mkActor (_env a) (_actor_no a) (_batch_size a) (_nstep_return a) (_gamma a) (_clip a)
    (_target_update a) (_num_total_actors a) (_policy_net a) m
    (_connect a) (_img_buf a) (no_op_steps a).

Definition set_connect (a : actor) (r : Redis) : actor :=
  mkActor (_env a) (_actor_no a) (_batch_size a) (_nstep_return a) (_gamma a) (_clip a)
    (_target_update a) (_num_total_actors a) (_policy_net a) (_local_memory a)
    r (_img_buf a) (no_op_steps a).

Definition set_img_buf (a : actor) (b : deque (list F)) : actor :=
  mkActor (_env a) (_actor_no a) (_batch_size a) (_nstep_return a) (_gamma a) (_clip a)
    (_target_update a) (_num_total_actors a) (_policy_net a) (_local_memory a)
    (_connect a) b (no_op_steps a).

(** [Actor.__init__]; [connect] is the server that [redis.StrictRedis]
    reaches.  A negative [buf_size] or [nstep_return] makes [deque] raise,
    so both are naturals. *)
Definition Actor_init (actor_no : Z) (env : Env) (policy_net : Net StateDict) (connect : Redis)
    (batch_size : Z) (nstep_return : nat) (gamma : F) (buf_size : nat) (clip : F -> F)
    (target_update : Z) (num_total_actors : Z) : actor :=
  mkActor env actor_no batch_size nstep_return gamma clip target_update num_total_actors
    (net_eval policy_net) (rm_new 1000) connect (deque_new buf_size) 30.

(** [Actor._pull_params] *)
Definition _pull_params (a : actor) : actor :=
  match redis_get (_connect a) "params" with
  | Some params => set_policy_net a (load_state_dict (_policy_net a) (loads params))
  | None => a
  end.

(** The pixel-wise maximum [np.amax(np.dstack((a, b)), axis=2)]. *)
Definition byte_max (x y : Byte.byte) : Byte.byte :=
  if (Byte.to_N x <? Byte.to_N y)%N then y else x.

Definition amax_dstack (a b : Frame) : Frame := zip_with byte_max a b.

(** [Actor.preproc_state] *)
Definition preproc_state (screen : Screen) : list F :=
  let screen_Gray_max := amax_dstack (fst screen) (snd screen) in
  let transformed_image := resize screen_Gray_max in
  let int_image := map (fun v => fdiv (f32 v) (flit 255)) transformed_image in
  int_image.

(** [for _ in range(n): env.step(0)] *)
Definition no_ops (n : Z) (e : Env) : Env :=
  fold_left (fun e _ => fst (fst (env_step e 0))) (py_range n) e.

(** [Actor._initialize] *)
Definition _initialize (a : actor) (g : Rng) : Py (actor * Rng) :=
  let e := env_reset (_env a) in
  let nx_st_gray := getScreenGrayscale e in
  let nx_screen : Screen := (nx_st_gray, nx_st_gray) in
  let buf := fold_left (fun b _ => deque_append b (preproc_state nx_screen))
                       (py_range (Z.of_nat (maxlen (_img_buf a)))) (_img_buf a) in
  '(n, g') ← randint 1 (no_op_steps a) g;
  mret (set_img_buf (set_env a (no_ops n e)) buf, g').

(** [Actor.reset]: the actor, the random source and the returned state. *)
Definition reset (a : actor) (g : Rng) : Py (actor * Rng * list (list F)) :=
  let a1 := set_img_buf a (deque_clear (_img_buf a)) in
  '(a2, g') ← _initialize a1 g;
  mret (a2, g', items (_img_buf a2)).

(** The exploration rate of lines 97-100. *)
Definition exploration_rate (actor_no num_total_actors : Z) : F :=
  if (num_total_actors =? 1)%Z
  then EPS_BASE
  else fpow EPS_BASE
         (fadd (flit 1)
               (fmul (fdiv (fsub (of_int actor_no) (flit 1))
                           (fsub (of_int num_total_actors) (flit 1)))
                     EPS_ALPHA)).

(** [[self._gamma ** i for i in range(self._nstep_return + 1)]] *)
Definition gamma_table (gamma : F) (nstep_return : nat) : list F :=
  map (fun i => fpow gamma (of_int i)) (py_range (Z.of_nat nstep_return + 1)).

(** Line 91 as Python runs it: the promotion of [i] and the power can
    raise.  When nothing raises the result is [gamma_table]. *)
Definition gamma_nsteps_of (gamma : F) (nstep_return : nat) : Py (list F) :=
  py_comprehension (fun i => y ← py_float i; py_pow gamma y)
                   (py_range (Z.of_nat nstep_return + 1)).

(** Lines 97-100 as Python runs them: the operands are evaluated from the
    left, the promotions of the two ints, the division and the power can
    raise.  When nothing raises the result is [exploration_rate]. *)
Definition exploration_rate_of (actor_no num_total_actors : Z) : Py F :=
  if (num_total_actors =? 1)%Z
  then mret EPS_BASE
  else
    a ← py_float actor_no;
    n ← py_float num_total_actors;
    q ← py_truediv (fsub a (flit 1)) (fsub n (flit 1));
    py_pow EPS_BASE (fadd (flit 1) (fmul q EPS_ALPHA)).

(** [run] up to the loop (lines 89-100). *)
Definition run_start (a : actor) (g : Rng) : Py machine :=
  '(a1, g1, st) ← reset a g;
  gamma_nsteps ← gamma_nsteps_of (_gamma a1) (_nstep_return a1);
  eps ← exploration_rate_of (_actor_no a1) (_num_total_actors a1);
  mret (mkMachine a1
          (run.mkLocals st (deque_new (_nstep_return a1)) gamma_nsteps
             0 0 0 (np_zeros (210 * 160)) eps 0)
          g1).

(** The variables the 4-fold repetition updates. *)
Record repeat_vars := mkRepeat {
  r_env : Env;
  r_length_epsiode : Z;
  r_reward : F;
  r_done : bool;
  r_screen_temp : Screen;
  r_next_grayscreen : Frame;
}.

(** One pass of [for i in range(4)] (lines 110-117). *)
Definition sub_step (action : Z) (v : repeat_vars) (i : Z) : repeat_vars :=
  let length_epsiode := (r_length_epsiode v + 1)%Z in
  let '(e, curr_reward, done) := env_step (r_env v) action in
  let next_grayscreen := getScreenGrayscale e in
  let reward := fadd (r_reward v) curr_reward in
  let screen_temp := r_screen_temp v in
  let screen_temp := if (i =? 2)%Z then (next_grayscreen, snd screen_temp) else screen_temp in
  let screen_temp := if (i =? 3)%Z then (fst screen_temp, next_grayscreen) else screen_temp in
  mkRepeat e length_epsiode reward done screen_temp next_grayscreen.

(** Lines 107-117.  [np_empty] is what [np.empty] happens to hold; [done]
    is rebound by every pass, so its value before the loop is never read. *)
Definition frame_repeat (np_empty : Screen) (e : Env) (action : Z)
    (length_epsiode : Z) (next_grayscreen : Frame) : repeat_vars :=
  fold_left (sub_step action) (py_range 4)
    (mkRepeat e length_epsiode (of_int 0) false np_empty next_grayscreen).

(** Lines 126-129: the n-step transition goes to the local memory when the
    window is full. *)
Definition nstep_emit (step_buffer : deque (Transition F)) (gamma_nsteps : list F)
    (local_memory : ReplayMemory F) : Py (ReplayMemory F) :=
  if (deque_len step_buffer =? maxlen step_buffer)%nat
  then
    terms ← py_comprehension
              (fun i => g ← py_index gamma_nsteps (- (i + 2));
                        tr ← deque_index step_buffer i;
                        mret (fmul g (reward tr)))
              (py_range (Z.of_nat (maxlen step_buffer)));
    let r_nstep := py_sum terms in
    first ← deque_index step_buffer 0;
    last ← deque_index step_buffer (-1);
    mret (rm_push local_memory
            (mkTransition (state first) (action first) r_nstep (next_state last) (done last)))
  else mret local_memory.

(** What lines 104-125 hand to the rest of the iteration. *)
Record interaction := mkInteraction {
  i_self : actor;
  i_rng : Rng;
  i_length_epsiode : Z;
  i_next_grayscreen : Frame;
  i_step_buffer : deque (Transition F);
  i_next_state : list (list F);
  i_done : bool;
}.

(** Lines 104-125: choose an action, repeat it, stack the new tile and
    append the raw transition to the window. *)
Definition interact (np_empty : Screen) (m : machine) : interaction :=
  let a := self m in
  let l := frame m in
  let '(action, g) := epsilon_greedy (run.state l) (_policy_net a) (run.eps l) (rng m) in
  let v := frame_repeat np_empty (_env a) action (run.length_epsiode l) (run.next_grayscreen l) in
  let img_buf := deque_append (_img_buf a) (preproc_state (r_screen_temp v)) in
  let next_state := items img_buf in
  let done := r_done v in
  let reward := _clip a (r_reward v) in
  let step_buffer :=
    deque_append (run.step_buffer l)
      (mkTransition (run.state l) action reward next_state done) in
  mkInteraction (set_img_buf (set_env a (r_env v)) img_buf) g (r_length_epsiode v)
    (r_next_grayscreen v) step_buffer next_state done.

(** Lines 130-135: the new state, and the reset at the end of an episode. *)
Definition episode_end (a : actor) (g : Rng) (l : run.locals F)
    (next_state : list (list F)) (done : bool) (length_epsiode : Z)
    (next_grayscreen : Frame) (step_buffer : deque (Transition F)) : Py machine :=
  if done || (50000 <? length_epsiode)%Z
  then
    '(a', g', st) ← reset a g;
    mret (mkMachine a'
            (run.mkLocals st (deque_clear step_buffer) (run.gamma_nsteps l)
               (run.sum_rwd l) (run.n_episode l + 1)%Z 0 next_grayscreen
               (run.eps l) (run.t l))
            g')
  else
    mret (mkMachine a
            (run.mkLocals next_state step_buffer (run.gamma_nsteps l)
               (run.sum_rwd l) (run.n_episode l) length_epsiode next_grayscreen
               (run.eps l) (run.t l))
            g).

(** Lines 104-135. *)
Definition play_phase (np_empty : Screen) (m : machine) : Py machine :=
  let i := interact np_empty m in
  mem ← nstep_emit (i_step_buffer i) (run.gamma_nsteps (frame m)) (_local_memory (i_self i));
  episode_end (set_local_memory (i_self i) mem) (i_rng i) (frame m)
    (i_next_state i) (i_done i) (i_length_epsiode i) (i_next_grayscreen i) (i_step_buffer i).

(** Lines 136-144. *)
Definition publish_phase (m : machine) : Py machine :=
  let a := self m in
  if (_batch_size a <=? rm_len (_local_memory a))%Z
  then
    '(samples, g) ← rm_sample (_local_memory a) (_batch_size a) (rng m);
    gamma ← py_index (run.gamma_nsteps (frame m)) (-1);
    let prio := calc_priorities (_policy_net a) samples gamma in
    let connect := redis_rpush (_connect a) "experience" (dumps (samples, prio)) in
    mret (mkMachine (set_local_memory (set_connect a connect) (rm_clear (_local_memory a)))
            (frame m) g)
  else mret m.

(** Lines 146-147; [%] raises on a zero divisor. *)
Definition sync_phase (m : machine) : Py machine :=
  let a := self m in
  let t := run.t (frame m) in
  if (0 <? t)%Z
  then
    if (_target_update a =? 0)%Z then raise ZeroDivisionError
    else if (t mod _target_update a =? 0)%Z
         then mret (mkMachine (_pull_params a) (frame m) (rng m))
         else mret m
  else mret m.

(** [for t in count()]: the next value of [t]. *)
Definition next_t (m : machine) : machine :=
  let l := frame m in
  mkMachine (self m)
    (run.mkLocals (run.state l) (run.step_buffer l) (run.gamma_nsteps l) (run.sum_rwd l)
       (run.n_episode l) (run.length_epsiode l) (run.next_grayscreen l) (run.eps l)
       (run.t l + 1)%Z)
    (rng m).

(** One iteration of the loop of [run]. *)
Definition loop_body (np_empty : Screen) (m : machine) : Py machine :=
  m1 ← play_phase np_empty m;
  m2 ← publish_phase m1;
  m3 ← sync_phase m2;
  mret (next_t m3).

(** Another process writes to the Redis server. *)
Definition redis_changed (r : Redis) (m : machine) : machine :=
  mkMachine (set_connect (self m) r) (frame m) (rng m).


(** Where the loop stands: at its head (line 102), before the publish
    test (line 136), before the sync test (line 146). *)
Inductive PC := LoopHead | BeforePublish | BeforeSync.

(** The states of a run of the actor [a0]: [run] is called on [a0], the
    loop goes round, and other processes write to the Redis server at any
    time. *)
Inductive reachable (a0 : actor) : PC -> machine -> Prop :=
| reach_start g m :
    run_start a0 g = inr m -> reachable a0 LoopHead m
| reach_play np_empty m m' :
    reachable a0 LoopHead m -> play_phase np_empty m = inr m' ->
    reachable a0 BeforePublish m'
| reach_publish m m' :
    reachable a0 BeforePublish m -> publish_phase m = inr m' ->
    reachable a0 BeforeSync m'
| reach_sync m m' :
    reachable a0 BeforeSync m -> sync_phase m = inr m' ->
    reachable a0 LoopHead (next_t m')
| reach_redis pc r m :
    reachable a0 pc m -> reachable a0 pc (redis_changed r m).

End ActorMethods.

(** ** Notions used to state the properties *)

Section Notions.
Context {F Env Rng StateDict : Type}.
Context {HF : PyFloat F} {HE : GymEnv Env F} {HR : Entropy Rng} {HL : Libs F Rng StateDict}.

(** The environment after [k] steps with the same action. *)
Definition env_after (action : Z) (k : nat) (e : Env) : Env :=
  Nat.iter k (fun e => fst (fst (env_step e action))) e.

(** The [done] flag the environment reports on sub-step [k] (counted from
    1) of a decision that starts in [e]. *)
Definition done_at (action : Z) (k : nat) (e : Env) : bool :=
  snd (env_step (env_after action (k - 1) e) action).

(** The frame the environment shows after sub-step [k] (counted from 1). *)
Definition frame_at (action : Z) (k : nat) (e : Env) : Frame :=
  getScreenGrayscale (env_after action k e).

(** The n-step reward as the specification writes it: the sum over
    [i = 0 .. N-1] of [gamma^(N-1-i) * window[i].reward], [N] the length of
    the window, the terms added in the order of [i]. *)
Definition discounted_sum (gamma : F) (window : list (Transition F)) : F :=
  let N := Z.of_nat (length window) in
  fold_left fadd
    (imap (fun i tr => fmul (fpow gamma (of_int (N - 1 - Z.of_nat i))) (reward tr)) window)
    (of_int 0).

(** The tile made of the frame the environment shows right after a reset. *)
Definition initial_tile (e : Env) : list F :=
  let gray := getScreenGrayscale (env_reset e) in
  preproc_state (gray, gray).

(** The number of no-op steps that [_initialize] takes with the random
    source [g]. *)
Definition no_op_count (a : Actor F Env StateDict) (g : Rng) : Z :=
  (1 + Z.of_N (fst (draw g)) mod (no_op_steps a - 1))%Z.

(** What holds in every state of a run of [a0]: the configuration is the
    one of [a0], the table of discounts and the exploration rate are the
    ones computed before the loop, the window has the n-step horizon as
    its bound, the frame stack is full and is the current state. *)
Record run_inv (a0 : Actor F Env StateDict) (m : Machine F Env Rng StateDict) : Prop := {
  inv_actor_no : _actor_no (self m) = _actor_no a0;
  inv_batch_size : _batch_size (self m) = _batch_size a0;
  inv_nstep_return : _nstep_return (self m) = _nstep_return a0;
  inv_gamma : _gamma (self m) = _gamma a0;
  inv_num_total_actors : _num_total_actors (self m) = _num_total_actors a0;
  inv_no_op_steps : no_op_steps (self m) = no_op_steps a0;
  inv_img_maxlen : maxlen (_img_buf (self m)) = maxlen (_img_buf a0);
  inv_capacity : capacity (_local_memory (self m)) = capacity (_local_memory a0);
  inv_gamma_nsteps :
    run.gamma_nsteps (frame m) = gamma_table (_gamma a0) (_nstep_return a0);
  inv_window_maxlen : maxlen (run.step_buffer (frame m)) = _nstep_return a0;
  inv_window_len : (deque_len (run.step_buffer (frame m)) <= _nstep_return a0)%nat;
  inv_eps : run.eps (frame m) = exploration_rate (_actor_no a0) (_num_total_actors a0);
  inv_stack_full : length (items (_img_buf (self m))) = maxlen (_img_buf a0);
  inv_state : run.state (frame m) = items (_img_buf (self m));
}.

(** Every value of the tile lies in [[0, 1]]. *)
Definition unit_tile (tile : list F) : Prop :=
  Forall (fun v => fle (of_int 0) v /\ fle v (of_int 1)) tile.

(** The contract of [resize] with [preserve_range=True] on a [uint8]
    image: every value of the result lies in the range of a byte. *)
Definition resize_preserves_range : Prop :=
  forall (img : Frame) (v : F),
    v ∈ resize img -> fle (of_int 0) v /\ fle v (of_int 255).

(** The float32 cast followed by the division by [255.0] maps the range of
    a byte into the unit interval. *)
Definition scaling_into_unit : Prop :=
  forall v : F,
    fle (of_int 0) v -> fle v (of_int 255) ->
    fle (of_int 0) (fdiv (f32 v) (flit 255)) /\ fle (fdiv (f32 v) (flit 255)) (of_int 1).

(** The contract of the priority oracle: one weight per transition. *)
Definition one_priority_each : Prop :=
  forall (net : Net StateDict) (samples : list (Transition F)) (gamma : F),
    length (calc_priorities net samples gamma) = length samples.

(** The reward the environment pays on sub-step [k] (counted from 1) of a
    decision that starts in [e]. *)
Definition reward_at (action : Z) (k : nat) (e : Env) : F :=
  snd (fst (env_step (env_after action (k - 1) e) action)).

(** Consecutive transitions of a window: each one starts in the state the
    one before it ended in. *)
Fixpoint chained (w : list (Transition F)) : Prop :=
  match w with
  | tr :: rest =>
      match rest with
      | tr' :: _ => next_state tr = state tr' /\ chained rest
      | [] => True
      end
  | [] => True
  end.

(** The order [<] of the floats is asymmetric (as it is for IEEE numbers,
    NaN included). *)
Definition fltb_asymmetric : Prop :=
  forall u v : F, fltb u v = true -> fltb v u = false.

(** The bound on the occupancy of the local memory at each point of the
    loop: the batch size before the publish test, below it elsewhere. *)
Definition occupancy_bound (B : Z) (pc : PC) (m : Machine F Env Rng StateDict) : Prop :=
  match pc with
  | BeforePublish => (rm_len (_local_memory (self m)) <= B)%Z
  | _ => (rm_len (_local_memory (self m)) < B)%Z
  end.

End Notions.

(** ** A small instance to run the model on

    The environment counts its steps, shows the count as a two-pixel frame,
    pays the count as reward and reports [done] on the first step after a
    reset and on every fifth step; it goes on after [done].  The resize
    keeps every pixel, the policy draws one of two actions, a priority is
    the discounted reward, the serialisation keeps the sizes only. *)
Module Toy.

Definition pixel (n : nat) : Byte.byte :=
  default Byte.x00 (Byte.of_N (N.of_nat n mod 256)).

#[global] Instance env : GymEnv nat Q := {|
  env_reset := fun _ => 0%nat;
  env_step := fun n _ => (S n, inject_Z (Z.of_nat n), (n =? 0)%nat || (n mod 5 =? 4)%nat);
  getScreenGrayscale := fun n => [pixel n; pixel (2 * n)];
|}.

#[global] Instance libs : Libs Q N (list Byte.byte) := {|
  resize := map (fun b => inject_Z (Z.of_N (Byte.to_N b)));
  epsilon_greedy := fun _ _ _ g => let '(r, g') := draw g in (Z.of_N (r mod 2), g');
  calc_priorities := fun _ samples gamma => map (fun tr => Qmult gamma (reward tr)) samples;
  dumps := fun '(samples, prio) =>
             repeat Byte.x01 (length samples) ++ repeat Byte.x02 (length prio);
  loads := fun blob => blob;
|}.

Definition server : Redis := mkRedis ∅ ∅.

(** An actor with [batch_size = 2], [nstep_return = 2], [gamma = 0.5],
    [buf_size = 2], [target_update = 2] among 4 actors. *)
Definition actor0 : Actor Q nat (list Byte.byte) :=
  Actor_init 1 0%nat (mkNet [] true) server 2 2 (1 # 2) 2 default_clip 2 4.

Definition junk : Screen := ([], []).

(** The result of a computation that is known not to raise. *)
Definition get {A : Type} (dflt : A) (c : Py A) : A :=
  match c with inr x => x | inl _ => dflt end.

Definition stuck : Machine Q nat N (list Byte.byte) :=
  mkMachine actor0 (run.mkLocals [] (deque_new 0) [] 0 0 0 [] 0%Q 0) 0%N.

(** The state at the loop head of the first, second and third iteration,
    and before the publish test of the third. *)
Definition m0 : Machine Q nat N (list Byte.byte) := get stuck (run_start actor0 7%N).
Definition m1 : Machine Q nat N (list Byte.byte) := get stuck (loop_body junk m0).
Definition m2 : Machine Q nat N (list Byte.byte) := get stuck (loop_body junk m1).
Definition m2_played : Machine Q nat N (list Byte.byte) := get stuck (play_phase junk m2).

(** The same actor with [nstep_return = 0], and the state in which its
    loop starts. *)
Definition actor_no_horizon : Actor Q nat (list Byte.byte) :=
  Actor_init 1 0%nat (mkNet [] true) server 2 0 (1 # 2) 2 default_clip 2 4.
Definition h0 : Machine Q nat N (list Byte.byte) := get stuck (run_start actor_no_horizon 7%N).

(** The same actor with [target_update = 0], and the states at the loop
    head of its first and second iteration. *)
Definition actor_no_sync : Actor Q nat (list Byte.byte) :=
  Actor_init 1 0%nat (mkNet [] true) server 2 2 (1 # 2) 2 default_clip 0 4.
Definition s0 : Machine Q nat N (list Byte.byte) := get stuck (run_start actor_no_sync 7%N).
Definition s1 : Machine Q nat N (list Byte.byte) := get stuck (loop_body junk s0).

(** The same actor with [batch_size = 0] and [nstep_return = 1], the state
    in which its loop starts and the one before its first publish test. *)
Definition actor_no_batch : Actor Q nat (list Byte.byte) :=
  Actor_init 1 0%nat (mkNet [] true) server 0 1 (1 # 2) 2 default_clip 2 4.
Definition b0 : Machine Q nat N (list Byte.byte) := get stuck (run_start actor_no_batch 7%N).
Definition b0_played : Machine Q nat N (list Byte.byte) := get stuck (play_phase junk b0).

(** The same environment with a screen that stays dark for the first ten
    steps of an episode. *)
Definition env_dark : GymEnv nat Q := {|
  env_reset := fun _ => 0%nat;
  env_step := fun n _ => (S n, inject_Z (Z.of_nat n), (n =? 0)%nat || (n mod 5 =? 4)%nat);
  getScreenGrayscale := fun n => if (n <? 11)%nat then [] else [pixel n; pixel (2 * n)];
|}.

End Toy.

(** ** The launcher [actor_node.main]

    The parsed command line, and what [main] builds from it before it
    calls [run].  Parsing itself, [visdom] and the device are left out;
    [gym.make], the construction of the network and the Redis server
    behind a host name are arguments.  The R2D2 actor is another class,
    kept as the arguments it is made from. *)
Module actor_node.

End actor_node.

Section Launcher.
Context {F Env Rng StateDict : Type}.
Context {HF : PyFloat F} {HE : GymEnv Env F} {HR : Entropy Rng} {HL : Libs F Rng StateDict}.




End Launcher.

(** * Properties *)

(** Splits a hypothesis saying that a sequence of Python computations
    returned, and closes the cases where it raised. *)
Ltac py_inv H :=
  repeat (unfold mret, Py_ret, raise, mbind, Py_bind in H; cbv beta iota zeta in H;
          match type of H with
          | inl _ = inr _ => discriminate H
          | inr _ = inr _ => injection H as H
          | match ?c with inl _ => _ | inr _ => _ end = inr _ =>
              let E := fresh "E" in
              destruct c eqn:E; [discriminate H |]
          end).

(** ** The exploration rate in real arithmetic *)

Lemma Q2R_lit (a : Z) (b : positive) : Q2R (a # b) = (IZR a / IZR (Z.pos b))%R.
Proof. reflexivity. Qed.

Lemma eps_real_one_actor (actor_no : Z) : exploration_rate (F:=R) actor_no 1 = 0.4%R.
Proof. unfold exploration_rate, EPS_BASE. simpl. rewrite Q2R_lit. lra. Qed.

Lemma eps_real_formula (actor_no num_total_actors : Z) :
  num_total_actors <> 1%Z ->
  exploration_rate (F:=R) actor_no num_total_actors =
  Rpower 0.4 (1 + (IZR actor_no - 1) / (IZR num_total_actors - 1) * 7.0)%R.
Proof.
  intros Hne. unfold exploration_rate, EPS_BASE, EPS_ALPHA.
  destruct (Z.eqb_spec num_total_actors 1) as [->|_]; [congruence|].
  cbn -[Rpower IZR Q2R]. rewrite !Q2R_lit.
  replace (1 / 1)%R with 1%R by lra. replace (7 / 1)%R with 7.0%R by lra.
  f_equal.
Qed.

Lemma eps_real_first : exploration_rate (F:=R) 1 4 = 0.4%R.
Proof.
  rewrite eps_real_formula by lia.
  replace (1 + (1 - 1) / (4 - 1) * 7.0)%R with 1%R by lra.
  rewrite Rpower_1; lra.
Qed.

Lemma eps_real_last : exploration_rate (F:=R) 4 4 = (0.4 ^ 8)%R.
Proof.
  rewrite eps_real_formula by lia.
  replace (1 + (4 - 1) / (4 - 1) * 7.0)%R with (INR 8) by (simpl; lra).
  apply Rpower_pow. lra.
Qed.

Section Facts.
Context {F Env Rng StateDict : Type}.
Context {HF : PyFloat F} {HE : GymEnv Env F} {HR : Entropy Rng} {HL : Libs F Rng StateDict}.

#[local] Abbreviation actor := (Actor F Env StateDict).
#[local] Abbreviation machine := (Machine F Env Rng StateDict).

(** ** Python runtime *)

Lemma py_range_length (n : Z) : length (py_range n) = Z.to_nat n.
Proof. unfold py_range. by rewrite length_map, length_seq. Qed.

Lemma py_index_nonneg {A : Type} (l : list A) (i : nat) (x : A) :
  l !! i = Some x -> py_index l (Z.of_nat i) = inr x.
Proof.
  intros Hx. pose proof (lookup_lt_Some _ _ _ Hx) as Hlt. unfold py_index. cbv zeta.
  destruct (Z.ltb_spec (Z.of_nat i) 0); [lia|].
  destruct (Z.leb_spec 0 (Z.of_nat i)); [|lia].
  destruct (Z.ltb_spec (Z.of_nat i) (Z.of_nat (length l))); [|lia].
  cbn. by rewrite Nat2Z.id, Hx.
Qed.

Lemma py_index_from_end {A : Type} (l : list A) (k : nat) (x : A) :
  (0 < k <= length l)%nat ->
  l !! (length l - k)%nat = Some x -> py_index l (- Z.of_nat k) = inr x.
Proof.
  intros Hk Hx. pose proof (lookup_lt_Some _ _ _ Hx) as Hlt. unfold py_index. cbv zeta.
  destruct (Z.ltb_spec (- Z.of_nat k) 0); [|lia].
  destruct (Z.leb_spec 0 (- Z.of_nat k + Z.of_nat (length l))); [|lia].
  destruct (Z.ltb_spec (- Z.of_nat k + Z.of_nat (length l)) (Z.of_nat (length l))); [|lia].
  cbn. replace (Z.to_nat (- Z.of_nat k + Z.of_nat (length l))) with (length l - k)%nat by lia.
  by rewrite Hx.
Qed.

Lemma deque_append_maxlen {A : Type} (d : deque A) (x : A) :
  maxlen (deque_append d x) = maxlen d.
Proof. reflexivity. Qed.

Lemma deque_append_length {A : Type} (d : deque A) (x : A) :
  (length (items d) <= maxlen d)%nat ->
  length (items (deque_append d x)) = Nat.min (S (length (items d))) (maxlen d).
Proof.
  intros Hle. unfold deque_append. cbv zeta. cbn [items].
  destruct (Nat.ltb_spec (maxlen d) (length (items d ++ [x]))) as [Hlt|Hge];
    [rewrite length_drop|]; rewrite length_app in *; cbn [length] in *; lia.
Qed.

Lemma deque_append_nonempty {A : Type} (d : deque A) (x : A) :
  (0 < maxlen d)%nat -> (length (items d) <= maxlen d)%nat ->
  items (deque_append d x) <> [].
Proof.
  intros Hpos Hle Hnil. apply (f_equal length) in Hnil.
  rewrite deque_append_length in Hnil by done. cbn [length] in Hnil. lia.
Qed.

Lemma deque_append_elem {A : Type} (d : deque A) (x y : A) :
  y ∈ items (deque_append d x) -> y ∈ items d \/ y = x.
Proof.
  unfold deque_append. cbv zeta. cbn [items]. intros Hy.
  assert (y ∈ items d ++ [x]) as Hin.
  { destruct (maxlen d <? length (items d ++ [x]))%nat; [|done].
    by apply (subseteq_drop 1). }
  apply elem_of_app in Hin as [?|Hin]; [by left|right].
  by apply list_elem_of_singleton in Hin.
Qed.

(** ** The 4-fold repetition *)

Lemma frame_repeat_spec (np_empty : Screen) (e : Env) (a : Z) (len : Z) (ng : Frame) :
  let v := frame_repeat np_empty e a len ng in
  r_env v = env_after a 4 e /\
  r_length_epsiode v = (len + 4)%Z /\
  r_done v = done_at a 4 e /\
  r_screen_temp v = (frame_at a 3 e, frame_at a 4 e) /\
  r_next_grayscreen v = frame_at a 4 e.
Proof.
  unfold frame_repeat, done_at, frame_at, env_after.
  change (py_range 4) with [0; 1; 2; 3]%Z. cbn [fold_left Nat.iter nat_rect Nat.sub].
  unfold sub_step. cbn [r_env r_length_epsiode r_reward r_done r_screen_temp].
  destruct (env_step e a) as [[e1 r1] d1].
  cbn [fst snd r_env r_length_epsiode r_reward r_done r_screen_temp Z.eqb Pos.eqb].
  destruct (env_step e1 a) as [[e2 r2] d2].
  cbn [fst snd r_env r_length_epsiode r_reward r_done r_screen_temp Z.eqb Pos.eqb].
  destruct (env_step e2 a) as [[e3 r3] d3].
  cbn [fst snd r_env r_length_epsiode r_reward r_done r_screen_temp Z.eqb Pos.eqb].
  destruct (env_step e3 a) as [[e4 r4] d4].
  cbn [fst snd r_env r_length_epsiode r_reward r_done r_screen_temp r_next_grayscreen
       Z.eqb Pos.eqb].
  repeat split; try reflexivity; lia.
Qed.

(** What [interact] leaves behind, in terms of the four sub-steps. *)
Lemma interact_spec (np_empty : Screen) (m : machine) :
  let a := fst (epsilon_greedy (run.state (frame m)) (_policy_net (self m))
                  (run.eps (frame m)) (rng m)) in
  let e := _env (self m) in
  let i := interact np_empty m in
  _env (i_self i) = env_after a 4 e /\
  i_length_epsiode i = (run.length_epsiode (frame m) + 4)%Z /\
  i_done i = done_at a 4 e /\
  _img_buf (i_self i) =
    deque_append (_img_buf (self m)) (preproc_state (frame_at a 3 e, frame_at a 4 e)) /\
  i_next_state i = items (_img_buf (i_self i)) /\
  i_step_buffer i =
    deque_append (run.step_buffer (frame m))
      (mkTransition (run.state (frame m)) a
         (_clip (self m)
            (r_reward (frame_repeat np_empty e a (run.length_epsiode (frame m))
                         (run.next_grayscreen (frame m)))))
         (i_next_state i) (done_at a 4 e)).
Proof.
  unfold interact.
  destruct (epsilon_greedy _ _ _ _) as [a g]. cbn [fst].
  pose proof (frame_repeat_spec np_empty (_env (self m)) a
                (run.length_epsiode (frame m)) (run.next_grayscreen (frame m)))
    as (He & Hl & Hd & Hs & _).
  cbn. rewrite He, Hl, Hd, Hs. repeat split; reflexivity.
Qed.

(** The parts of the object that [interact] does not touch. *)
Lemma interact_frame (np_empty : Screen) (m : machine) :
  let a := i_self (interact np_empty m) in
  _actor_no a = _actor_no (self m) /\ _batch_size a = _batch_size (self m) /\
  _nstep_return a = _nstep_return (self m) /\ _gamma a = _gamma (self m) /\
  _num_total_actors a = _num_total_actors (self m) /\
  _policy_net a = _policy_net (self m) /\ _local_memory a = _local_memory (self m) /\
  _connect a = _connect (self m) /\ no_op_steps a = no_op_steps (self m).
Proof.
  unfold interact. destruct (epsilon_greedy _ _ _ _) as [a g]. cbn. repeat split.
Qed.

(** ** Reset *)

Lemma randint_spec (low high : Z) (g : Rng) :
  (low < high)%Z ->
  randint low high g = inr ((low + Z.of_N (fst (draw g)) mod (high - low))%Z, snd (draw g)).
Proof.
  intros Hlt. unfold randint. destruct (Z.ltb_spec low high); [|lia].
  by destruct (draw g).
Qed.

Lemma refill_spec {A : Type} (x : A) (idx : list Z) (l : list A) (n : nat) :
  (length l + length idx <= n)%nat ->
  fold_left (fun b _ => deque_append b x) idx (Deque l n) =
  Deque (l ++ replicate (length idx) x) n.
Proof.
  revert l. induction idx as [|i idx IH]; intros l Hle; cbn [fold_left length replicate].
  - by rewrite app_nil_r.
  - cbn [length] in Hle. unfold deque_append at 2. cbn [items maxlen].
    destruct (Nat.ltb_spec n (length (l ++ [x]))) as [Hlt|_].
    { rewrite length_app in Hlt. cbn in Hlt. lia. }
    rewrite IH by (rewrite length_app; cbn; lia).
    by rewrite <- app_assoc.
Qed.

Lemma _initialize_spec (a : actor) (g : Rng) :
  (1 < no_op_steps a)%Z -> items (_img_buf a) = [] ->
  _initialize a g =
  inr (set_img_buf (set_env a (no_ops (no_op_count a g) (env_reset (_env a))))
         (Deque (replicate (maxlen (_img_buf a)) (initial_tile (_env a)))
                (maxlen (_img_buf a))),
       snd (draw g)).
Proof.
  intros Hn Hempty. unfold _initialize, no_op_count, initial_tile.
  rewrite randint_spec by done. cbn.
  destruct (_img_buf a) as [l n]. cbn in *. subst l.
  rewrite refill_spec by (rewrite py_range_length; cbn; lia).
  by rewrite py_range_length, Nat2Z.id.
Qed.

Lemma reset_spec (a : actor) (g : Rng) :
  (1 < no_op_steps a)%Z ->
  reset a g =
  inr (set_img_buf (set_env a (no_ops (no_op_count a g) (env_reset (_env a))))
         (Deque (replicate (maxlen (_img_buf a)) (initial_tile (_env a)))
                (maxlen (_img_buf a))),
       snd (draw g),
       replicate (maxlen (_img_buf a)) (initial_tile (_env a))).
Proof.
  intros Hn. unfold reset. rewrite _initialize_spec by done. reflexivity.
Qed.

(** ** The n-step window *)

Lemma gamma_table_length (gamma : F) (N : nat) : length (gamma_table gamma N) = S N.
Proof. unfold gamma_table. rewrite length_map, py_range_length. lia. Qed.

Lemma gamma_table_lookup (gamma : F) (N i : nat) :
  (i <= N)%nat -> gamma_table gamma N !! i = Some (fpow gamma (of_int (Z.of_nat i))).
Proof.
  intros Hi. unfold gamma_table, py_range.
  rewrite !list_lookup_fmap, lookup_seq_lt by lia. reflexivity.
Qed.

(** [gamma_nsteps[-(i + 2)]] is [gamma ** (N - 1 - i)]. *)
Lemma gamma_table_from_end (gamma : F) (N i : nat) :
  (i < N)%nat ->
  py_index (gamma_table gamma N) (- (Z.of_nat i + 2)) =
  inr (fpow gamma (of_int (Z.of_nat N - 1 - Z.of_nat i))).
Proof.
  intros Hi. replace (- (Z.of_nat i + 2))%Z with (- Z.of_nat (i + 2))%Z by lia.
  apply py_index_from_end; rewrite gamma_table_length; [lia|].
  rewrite gamma_table_lookup by lia. do 3 f_equal. lia.
Qed.

(** [gamma_nsteps[-1]] is [gamma ** N]. *)
Lemma gamma_table_last (gamma : F) (N : nat) :
  py_index (gamma_table gamma N) (-1) = inr (fpow gamma (of_int (Z.of_nat N))).
Proof.
  apply (py_index_from_end _ 1); rewrite gamma_table_length; [lia|].
  rewrite gamma_table_lookup by lia. do 3 f_equal. lia.
Qed.

Lemma py_comprehension_imap {A B : Type} (f : Z -> Py B) (h : nat -> A -> B)
    (l : list A) (s : nat) :
  (forall i x, l !! i = Some x -> f (Z.of_nat (s + i)) = inr (h i x)) ->
  py_comprehension f (map Z.of_nat (seq s (length l))) = inr (imap h l).
Proof.
  revert s h. induction l as [|x l IH]; intros s h Hf; [reflexivity|].
  cbn [length seq map py_comprehension].
  rewrite <- (Nat.add_0_r s) at 1. rewrite (Hf 0%nat x eq_refl).
  unfold mbind, Py_bind. rewrite (IH (S s) (h ∘ S)).
  - reflexivity.
  - intros i y Hy. replace (S s + i)%nat with (s + S i)%nat by lia. apply (Hf (S i)), Hy.
Qed.

(** A full window: the aggregated transition is pushed. *)
Lemma nstep_emit_full (sb : deque (Transition F)) (gamma : F) (mem : ReplayMemory F) :
  (0 < maxlen sb)%nat -> deque_len sb = maxlen sb ->
  exists first last,
    items sb !! 0%nat = Some first /\
    items sb !! (maxlen sb - 1)%nat = Some last /\
    nstep_emit sb (gamma_table gamma (maxlen sb)) mem =
    inr (rm_push mem
           (mkTransition (state first) (action first) (discounted_sum gamma (items sb))
              (next_state last) (done last))).
Proof.
  intros Hpos Hfull. unfold deque_len in Hfull.
  destruct (lookup_lt_is_Some_2 (items sb) 0) as [first Hfirst]; [lia|].
  destruct (lookup_lt_is_Some_2 (items sb) (maxlen sb - 1)) as [last Hlast]; [lia|].
  exists first, last. split; [done|]. split; [done|].
  unfold nstep_emit, deque_len. rewrite Hfull, Nat.eqb_refl.
  unfold py_range. rewrite Nat2Z.id.
  replace (seq 0 (maxlen sb)) with (seq 0 (length (items sb))) by (by rewrite Hfull).
  rewrite (py_comprehension_imap _
             (fun i tr => fmul (fpow gamma (of_int (Z.of_nat (maxlen sb) - 1 - Z.of_nat i)))
                               (reward tr))).
  2:{ intros i x Hx. cbn [Nat.add].
      rewrite gamma_table_from_end by (apply lookup_lt_Some in Hx; lia).
      unfold deque_index. rewrite (py_index_nonneg _ _ _ Hx). reflexivity. }
  unfold mbind, Py_bind, deque_index.
  assert (py_index (items sb) 0 = inr first) as -> by apply (py_index_nonneg _ 0 _ Hfirst).
  assert (py_index (items sb) (-1) = inr last) as ->.
  { apply (py_index_from_end _ 1); rewrite Hfull; [lia|done]. }
  unfold py_sum, discounted_sum. rewrite Hfull. reflexivity.
Qed.

(** A window that is not full: nothing is pushed. *)
Lemma nstep_emit_partial (sb : deque (Transition F)) (gammas : list F) (mem : ReplayMemory F) :
  deque_len sb <> maxlen sb -> nstep_emit sb gammas mem = inr mem.
Proof.
  intros Hne. unfold nstep_emit. by destruct (Nat.eqb_spec (deque_len sb) (maxlen sb)).
Qed.

(** ** The phases, step by step *)

Lemma reset_inv (a a' : actor) (g g' : Rng) (st : list (list F)) :
  reset a g = inr (a', g', st) ->
  (1 < no_op_steps a)%Z /\
  a' = set_img_buf (set_env a (no_ops (no_op_count a g) (env_reset (_env a))))
         (Deque (replicate (maxlen (_img_buf a)) (initial_tile (_env a)))
                (maxlen (_img_buf a))) /\
  g' = snd (draw g) /\
  st = replicate (maxlen (_img_buf a)) (initial_tile (_env a)).
Proof.
  intros Hr. destruct (Z.ltb_spec 1 (no_op_steps a)) as [Hlt|Hge].
  - rewrite reset_spec in Hr by done. simplify_eq. auto.
  - unfold reset, _initialize, randint in Hr. cbn in Hr.
    destruct (Z.ltb_spec 1 (no_op_steps a)); [lia|]. discriminate Hr.
Qed.

Lemma nstep_emit_inv (sb : deque (Transition F)) (gammas : list F)
    (mem mem' : ReplayMemory F) :
  nstep_emit sb gammas mem = inr mem' ->
  mem' = mem \/ exists x, mem' = rm_push mem x.
Proof.
  unfold nstep_emit. intros Hn.
  destruct (deque_len sb =? maxlen sb)%nat; [|left; py_inv Hn; by subst].
  py_inv Hn. right. eauto.
Qed.

Lemma play_phase_inv (np_empty : Screen) (m m' : machine) :
  play_phase np_empty m = inr m' ->
  let i := interact np_empty m in
  exists mem,
    nstep_emit (i_step_buffer i) (run.gamma_nsteps (frame m)) (_local_memory (i_self i))
      = inr mem /\
    episode_end (set_local_memory (i_self i) mem) (i_rng i) (frame m) (i_next_state i)
      (i_done i) (i_length_epsiode i) (i_next_grayscreen i) (i_step_buffer i) = inr m'.
Proof. unfold play_phase. intros Hp. py_inv Hp. eauto. Qed.

Lemma episode_end_inv (a : actor) (g : Rng) (l : run.locals F) (ns : list (list F))
    (d : bool) (len : Z) (ngs : Frame) (sb : deque (Transition F)) (m' : machine) :
  episode_end a g l ns d len ngs sb = inr m' ->
  (d || (50000 <? len)%Z = true /\ (1 < no_op_steps a)%Z /\
   m' = mkMachine
          (set_img_buf (set_env a (no_ops (no_op_count a g) (env_reset (_env a))))
             (Deque (replicate (maxlen (_img_buf a)) (initial_tile (_env a)))
                    (maxlen (_img_buf a))))
          (run.mkLocals (replicate (maxlen (_img_buf a)) (initial_tile (_env a)))
             (deque_clear sb) (run.gamma_nsteps l) (run.sum_rwd l) (run.n_episode l + 1)%Z
             0 ngs (run.eps l) (run.t l))
          (snd (draw g))) \/
  (d || (50000 <? len)%Z = false /\
   m' = mkMachine a
          (run.mkLocals ns sb (run.gamma_nsteps l) (run.sum_rwd l) (run.n_episode l)
             len ngs (run.eps l) (run.t l))
          g).
Proof.
  unfold episode_end. intros He. destruct (d || (50000 <? len)%Z).
  - left. py_inv He. destruct p as [[a' g'] st].
    apply reset_inv in E as (Hn & -> & -> & ->). by simplify_eq.
  - right. py_inv He. by subst.
Qed.

Lemma publish_phase_inv (m m' : machine) :
  publish_phase m = inr m' ->
  ((_batch_size (self m) <= rm_len (_local_memory (self m)))%Z /\
   exists samples g gamma,
     rm_sample (_local_memory (self m)) (_batch_size (self m)) (rng m) = inr (samples, g) /\
     py_index (run.gamma_nsteps (frame m)) (-1) = inr gamma /\
     m' = mkMachine
            (set_local_memory
               (set_connect (self m)
                  (redis_rpush (_connect (self m)) "experience"
                     (dumps (samples, calc_priorities (_policy_net (self m)) samples gamma))))
               (rm_clear (_local_memory (self m))))
            (frame m) g) \/
  ((rm_len (_local_memory (self m)) < _batch_size (self m))%Z /\ m' = m).
Proof.
  unfold publish_phase. intros Hp.
  destruct (Z.leb_spec (_batch_size (self m)) (rm_len (_local_memory (self m)))).
  - left. split; [done|]. py_inv Hp. destruct p as [samples g].
    py_inv Hp. subst m'. by exists samples, g, f.
  - right. py_inv Hp. by subst.
Qed.

Lemma sync_phase_inv (m m' : machine) :
  sync_phase m = inr m' ->
  m' = m \/ m' = mkMachine (_pull_params (self m)) (frame m) (rng m).
Proof.
  unfold sync_phase. intros Hs.
  repeat match type of Hs with
         | (if ?c then _ else _) = _ => destruct c
         end; py_inv Hs; subst; auto.
Qed.

(** ** The invariant of the loop *)

Lemma py_comprehension_inv {A B : Type} (f : A -> Py B) (h : A -> B)
    (idx : list A) (l : list B) :
  (forall i x, f i = inr x -> x = h i) ->
  py_comprehension f idx = inr l -> l = map h idx.
Proof.
  intros Hf. revert l. induction idx as [|i idx IH]; intros l Hc; cbn in Hc.
  - py_inv Hc. by subst.
  - py_inv Hc. subst l. cbn. by rewrite (Hf _ _ E), (IH _ eq_refl).
Qed.

(** When line 91 returns, it returns the table of the powers. *)
Lemma gamma_nsteps_of_inv (gamma : F) (N : nat) (l : list F) :
  gamma_nsteps_of gamma N = inr l -> l = gamma_table gamma N.
Proof.
  unfold gamma_nsteps_of, gamma_table. apply py_comprehension_inv.
  intros i x Hx. unfold py_float, py_pow in Hx.
  destruct (of_int_raises i); [discriminate Hx|].
  unfold mbind, Py_bind, mret, Py_ret in Hx.
  destruct (fpow_error gamma (of_int i)); [discriminate Hx|]. by injection Hx as <-.
Qed.

(** When lines 97-100 return, they return the exploration rate. *)
Lemma exploration_rate_of_inv (actor_no num_total_actors : Z) (v : F) :
  exploration_rate_of actor_no num_total_actors = inr v ->
  v = exploration_rate actor_no num_total_actors.
Proof.
  unfold exploration_rate_of, exploration_rate, py_float, py_truediv, py_pow.
  destruct (num_total_actors =? 1)%Z; [intros Hv; py_inv Hv; by subst|].
  destruct (of_int_raises actor_no); [discriminate|].
  destruct (of_int_raises num_total_actors); [discriminate|].
  unfold mbind, Py_bind, mret, Py_ret.
  destruct (is_zero _); [discriminate|].
  destruct (fpow_error _ _); [discriminate|]. by intros [= <-].
Qed.

(** What [run] has done when it reaches the loop. *)
Lemma run_start_inversion (a0 : actor) (g : Rng) (m : machine) :
  run_start a0 g = inr m ->
  (1 < no_op_steps a0)%Z /\
  m = mkMachine
        (set_img_buf (set_env a0 (no_ops (no_op_count a0 g) (env_reset (_env a0))))
           (Deque (replicate (maxlen (_img_buf a0)) (initial_tile (_env a0)))
                  (maxlen (_img_buf a0))))
        (run.mkLocals (replicate (maxlen (_img_buf a0)) (initial_tile (_env a0)))
           (deque_new (_nstep_return a0)) (gamma_table (_gamma a0) (_nstep_return a0))
           0 0 0 (np_zeros (210 * 160))
           (exploration_rate (_actor_no a0) (_num_total_actors a0)) 0)
        (snd (draw g)).
Proof.
  unfold run_start. intros Hs. py_inv Hs. destruct p as [[a1 g1] st].
  apply reset_inv in E as (Hno & -> & -> & ->). py_inv Hs. subst m.
  repeat match goal with
         | Hg : gamma_nsteps_of _ _ = inr _ |- _ =>
             apply gamma_nsteps_of_inv in Hg; cbn in Hg
         | He : exploration_rate_of _ _ = inr _ |- _ =>
             apply exploration_rate_of_inv in He; cbn in He
         end.
  by subst.
Qed.

Lemma run_start_inv (a0 : actor) (g : Rng) (m : machine) :
  run_start a0 g = inr m -> run_inv a0 m.
Proof.
  intros Hs. apply run_start_inversion in Hs as (_ & Hs). subst m.
  constructor; cbn; try reflexivity.
  - lia.
  - apply length_replicate.
Qed.

Lemma rm_push_capacity (mem : ReplayMemory F) (x : Transition F) :
  capacity (rm_push mem x) = capacity mem.
Proof. reflexivity. Qed.

Lemma play_phase_run_inv (a0 : actor) (np_empty : Screen) (m m' : machine) :
  run_inv a0 m -> play_phase np_empty m = inr m' -> run_inv a0 m'.
Proof.
  intros Hinv Hp. apply play_phase_inv in Hp as (mem & Hmem & He).
  pose proof (interact_spec np_empty m) as (_ & _ & _ & Hbuf & Hns & Hsb).
  pose proof (interact_frame np_empty m) as (? & ? & ? & ? & ? & ? & Hlm & ? & ?).
  assert (capacity mem = capacity (_local_memory (self m))) as Hcap.
  { apply nstep_emit_inv in Hmem as [->|[x ->]]; by rewrite ?rm_push_capacity, Hlm. }
  assert (length (items (_img_buf (i_self (interact np_empty m)))) = maxlen (_img_buf a0))
    as Hfull.
  { rewrite Hbuf, deque_append_length; destruct Hinv; lia. }
  assert (maxlen (_img_buf (i_self (interact np_empty m))) = maxlen (_img_buf a0)) as Hmax.
  { rewrite Hbuf, deque_append_maxlen. by destruct Hinv. }
  assert (maxlen (i_step_buffer (interact np_empty m)) = _nstep_return a0) as Hwmax.
  { rewrite Hsb, deque_append_maxlen. by destruct Hinv. }
  assert (deque_len (i_step_buffer (interact np_empty m)) <= _nstep_return a0)%nat as Hwlen.
  { unfold deque_len. rewrite Hsb, deque_append_length; destruct Hinv;
      unfold deque_len in *; lia. }
  apply episode_end_inv in He as [(_ & _ & ->)|(_ & ->)];
    destruct Hinv; constructor; cbn; try congruence; try lia.
  rewrite length_replicate. congruence.
Qed.

Lemma publish_phase_run_inv (a0 : actor) (m m' : machine) :
  run_inv a0 m -> publish_phase m = inr m' -> run_inv a0 m'.
Proof.
  intros Hinv Hp.
  apply publish_phase_inv in Hp as [(_ & samples & g & gamma & _ & _ & ->)|(_ & ->)];
    [|done].
  destruct Hinv; constructor; cbn; congruence.
Qed.

Lemma _pull_params_frame (a : actor) :
  let a' := _pull_params a in
  _env a' = _env a /\ _actor_no a' = _actor_no a /\ _batch_size a' = _batch_size a /\
  _nstep_return a' = _nstep_return a /\ _gamma a' = _gamma a /\
  _num_total_actors a' = _num_total_actors a /\ no_op_steps a' = no_op_steps a /\
  _img_buf a' = _img_buf a /\ _local_memory a' = _local_memory a /\
  _connect a' = _connect a.
Proof. unfold _pull_params. destruct (redis_get _ _); cbn; repeat split. Qed.

Lemma sync_phase_run_inv (a0 : actor) (m m' : machine) :
  run_inv a0 m -> sync_phase m = inr m' -> run_inv a0 (next_t m').
Proof.
  intros Hinv Hs. apply sync_phase_inv in Hs as [->| ->].
  - destruct Hinv; constructor; cbn; congruence.
  - pose proof (_pull_params_frame (self m)) as (? & ? & ? & ? & ? & ? & ? & ? & ? & ?).
    destruct Hinv; constructor; cbn; congruence.
Qed.

Lemma reachable_run_inv (a0 : actor) (pc : PC) (m : machine) :
  reachable a0 pc m -> run_inv a0 m.
Proof.
  induction 1 as [g m Hs|np m m' _ IH Hp|m m' _ IH Hp|m m' _ IH Hs|pc r m _ IH].
  - by eapply run_start_inv.
  - by eapply play_phase_run_inv.
  - by eapply publish_phase_run_inv.
  - by eapply sync_phase_run_inv.
  - destruct IH; constructor; cbn; congruence.
Qed.

(** ** Sampling *)

(** [pick_distinct] returns [k] items of the pool, each taken once. *)
Lemma pick_distinct_spec {A : Type} (k : nat) (pool : list A) (g : Rng) :
  (k <= length pool)%nat ->
  exists rest,
    length (fst (pick_distinct k pool g)) = k /\
    Permutation (fst (pick_distinct k pool g) ++ rest) pool.
Proof.
  revert pool g. induction k as [|k IH]; intros pool g Hk.
  - exists pool. split; reflexivity.
  - cbn [pick_distinct]. destruct (draw g) as [r g'].
    set (j := (N.to_nat r mod length pool)%nat).
    assert (j < length pool)%nat as Hj by (apply Nat.mod_upper_bound; cbn in Hk; lia).
    destruct (lookup_lt_is_Some_2 pool j Hj) as [x Hx]. rewrite Hx.
    destruct (IH (take j pool ++ drop (S j) pool) g') as (rest & Hlen & Hperm).
    { rewrite length_app, length_take, length_drop. lia. }
    destruct (pick_distinct k (take j pool ++ drop (S j) pool) g') as [xs g''].
    cbn [fst] in *. exists rest. split; [cbn; lia|].
    cbn. rewrite Hperm, <- delete_take_drop. symmetry. by apply delete_Permutation.
Qed.

Lemma random_sample_spec {A : Type} (population : list A) (k : Z) (g : Rng) :
  (0 <= k <= Z.of_nat (length population))%Z ->
  exists samples g' rest,
    random_sample population k g = inr (samples, g') /\
    Z.of_nat (length samples) = k /\
    Permutation (samples ++ rest) population.
Proof.
  intros Hk. unfold random_sample.
  destruct (Z.ltb_spec k 0); [lia|].
  destruct (Z.ltb_spec (Z.of_nat (length population)) k); [lia|]. cbn.
  destruct (pick_distinct_spec (Z.to_nat k) population g) as (rest & Hlen & Hperm); [lia|].
  destruct (pick_distinct (Z.to_nat k) population g) as [samples g'].
  exists samples, g', rest. cbn in *. split; [done|]. split; [lia|done].
Qed.

(** A sample as large as the population is the whole population. *)
Lemma random_sample_all {A : Type} (population : list A) (g : Rng) :
  exists samples g',
    random_sample population (Z.of_nat (length population)) g = inr (samples, g') /\
    Permutation samples population.
Proof.
  destruct (random_sample_spec population (Z.of_nat (length population)) g)
    as (samples & g' & rest & Hs & Hlen & Hperm); [lia|].
  exists samples, g'. split; [done|].
  assert (rest = []) as ->.
  { apply Permutation_length in Hperm. rewrite length_app in Hperm.
    destruct rest; [done|]. cbn in Hperm. lia. }
  by rewrite app_nil_r in Hperm.
Qed.

(** ** No-op steps *)

Lemma fold_left_const_iter {A B : Type} (f : A -> A) (l : list B) (x : A) :
  fold_left (fun y _ => f y) l x = Nat.iter (length l) f x.
Proof.
  revert x. induction l as [|b l IH]; intros x; [reflexivity|].
  cbn [fold_left length]. rewrite IH. symmetry. apply Nat.iter_succ_r.
Qed.

(** [no_ops n] takes exactly [n] steps with action 0. *)
Lemma no_ops_env_after (n : Z) (e : Env) : no_ops n e = env_after 0 (Z.to_nat n) e.
Proof.
  unfold no_ops, env_after. by rewrite fold_left_const_iter, py_range_length.
Qed.

Lemma no_op_count_range (a : actor) (g : Rng) :
  (1 < no_op_steps a)%Z -> (1 <= no_op_count a g < no_op_steps a)%Z.
Proof.
  intros Hn. unfold no_op_count.
  pose proof (Z.mod_pos_bound (Z.of_N (fst (draw g))) (no_op_steps a - 1)). lia.
Qed.

(** ** Claims about single methods *)

(** C5 (as the code has it): on a reset of an actor with [no_op_steps = 30]
    the number of no-op steps is [1 + r mod 29] for the raw draw [r]: the
    environment is reset and then stepped exactly that many times with
    action 0, and the count lies between 1 and 29.  Thirty no-op steps
    are never taken. *)
Theorem no_op_count_below_30 (a : actor) (g : Rng) :
  no_op_steps a = 30%Z ->
  exists a',
    _initialize a g = inr (a', snd (draw g)) /\
    _env a' = env_after 0 (Z.to_nat (no_op_count a g)) (env_reset (_env a)) /\
    no_op_count a g = (1 + Z.of_N (fst (draw g)) mod 29)%Z /\
    (1 <= no_op_count a g <= 29)%Z /\
    no_op_count a g <> 30%Z.
Proof.
  intros H30. pose proof (no_op_count_range a g) as Hr. rewrite H30 in Hr.
  unfold _initialize. rewrite randint_spec by lia. cbn.
  eexists. split; [reflexivity|]. cbn.
  split; [unfold no_op_count; by rewrite H30, no_ops_env_after|].
  split; [unfold no_op_count; by rewrite H30|]. lia.
Qed.

(** C8: a parameter pull leaves the actor as it is when the server has no
    value under the key [params]; when it has one, the parameters of the
    policy network become the deserialised value, whatever they were
    before, and nothing else of the actor changes.  The pull of the loop
    does nothing either when the key is absent. *)
Theorem pull_params_effect (a : actor) :
  (redis_get (_connect a) "params" = None -> _pull_params a = a) /\
  (forall blob, redis_get (_connect a) "params" = Some blob ->
     _pull_params a = set_policy_net a (load_state_dict (_policy_net a) (loads blob)) /\
     params (_policy_net (_pull_params a)) = loads blob /\
     forall a2 : actor, redis_get (_connect a2) "params" = Some blob ->
       params (_policy_net (_pull_params a2)) = params (_policy_net (_pull_params a))) /\
  (forall m m' : machine,
     self m = a -> redis_get (_connect a) "params" = None ->
     sync_phase m = inr m' -> m' = m).
Proof.
  split; [|split].
  - intros Hnone. unfold _pull_params. by rewrite Hnone.
  - intros blob Hsome. unfold _pull_params. rewrite Hsome. split; [done|]. split; [done|].
    intros a2 H2. by rewrite H2.
  - intros m m' <- Hnone Hs. apply sync_phase_inv in Hs as [->| ->]; [done|].
    unfold _pull_params. rewrite Hnone. by destruct m.
Qed.

Lemma episode_end_frame (a : actor) (g : Rng) (l : run.locals F) (ns : list (list F))
    (d : bool) (len : Z) (ngs : Frame) (sb : deque (Transition F)) (m' : machine) :
  episode_end a g l ns d len ngs sb = inr m' ->
  _local_memory (self m') = _local_memory a /\ _connect (self m') = _connect a /\
  _policy_net (self m') = _policy_net a /\ _batch_size (self m') = _batch_size a /\
  run.t (frame m') = run.t l.
Proof.
  intros He. by apply episode_end_inv in He as [(_ & _ & ->)|(_ & ->)].
Qed.

(** C1: in every run of an actor with n-step horizon [N >= 1] and discount
    [gamma], whenever the window holds [N] raw transitions after the
    append of a decision step, lines 126-129 push exactly one transition
    into the local memory: its reward is the sum over [i = 0 .. N-1] of
    [gamma^(N-1-i) * window[i].reward], its state and action are those of
    [window[0]], its next state and done flag those of [window[N-1]]; and
    that is the local memory the iteration goes on with. *)
Theorem nstep_transition_emitted (a0 : actor) (np_empty : Screen) (m : machine) :
  let i := interact np_empty m in
  let window := items (i_step_buffer i) in
  let N := _nstep_return a0 in
  reachable a0 LoopHead m ->
  (0 < N)%nat ->
  length window = N ->
  exists first last,
    window !! 0%nat = Some first /\
    window !! (N - 1)%nat = Some last /\
    let pushed :=
      rm_push (_local_memory (i_self i))
        (mkTransition (state first) (action first) (discounted_sum (_gamma a0) window)
           (next_state last) (done last)) in
    nstep_emit (i_step_buffer i) (run.gamma_nsteps (frame m)) (_local_memory (i_self i))
      = inr pushed /\
    forall m', play_phase np_empty m = inr m' -> _local_memory (self m') = pushed.
Proof.
  intros i window N Hreach Hpos Hfull. subst N.
  pose proof (reachable_run_inv _ _ _ Hreach) as Hinv.
  pose proof (interact_spec np_empty m) as (_ & _ & _ & _ & _ & Hsb).
  assert (maxlen (i_step_buffer i) = _nstep_return a0) as Hmax.
  { subst i. rewrite Hsb, deque_append_maxlen. by destruct Hinv. }
  destruct (nstep_emit_full (i_step_buffer i) (_gamma a0) (_local_memory (i_self i)))
    as (first & last & Hfirst & Hlast & Hemit).
  { by rewrite Hmax. }
  { unfold deque_len. by rewrite Hmax. }
  rewrite Hmax in Hlast, Hemit.
  exists first, last. split; [done|]. split; [done|].
  rewrite (inv_gamma_nsteps _ _ Hinv). split; [done|].
  intros m' Hp. apply play_phase_inv in Hp as (mem & Hmem & He).
  rewrite (inv_gamma_nsteps _ _ Hinv) in Hmem. fold i in Hmem.
  rewrite Hemit in Hmem. injection Hmem as <-.
  by apply episode_end_frame in He as (-> & _).
Qed.

(** The publish step when the memory holds exactly the batch size. *)
Lemma publish_phase_full (a0 : actor) (m : machine) :
  let a := self m in
  let B := _batch_size a in
  run_inv a0 m ->
  rm_len (_local_memory a) = B ->
  exists samples g,
    rm_sample (_local_memory a) B (rng m) = inr (samples, g) /\
    Permutation samples (memory (_local_memory a)) /\
    Z.of_nat (length samples) = B /\
    publish_phase m =
    inr (mkMachine
           (set_local_memory
              (set_connect a
                 (redis_rpush (_connect a) "experience"
                    (dumps (samples,
                            calc_priorities (_policy_net a) samples
                              (fpow (_gamma a0) (of_int (Z.of_nat (_nstep_return a0))))))))
              (rm_clear (_local_memory a)))
           (frame m) g).
Proof.
  intros a B Hinv Hocc. subst a B.
  destruct (random_sample_all (memory (_local_memory (self m))) (rng m))
    as (samples & g & Hs & Hperm).
  unfold rm_len in Hocc. rewrite Hocc in Hs.
  exists samples, g. split; [exact Hs|]. split; [done|].
  split. { rewrite <- Hocc. f_equal. by apply Permutation_length. }
  unfold publish_phase, rm_len, rm_sample. rewrite Hocc, Z.leb_refl, Hs.
  by rewrite (inv_gamma_nsteps _ _ Hinv), gamma_table_last.
Qed.

(** C2: in every run, when the occupancy of the local memory is the batch
    size [B] at the publish test, and the priority oracle answers with one
    weight per transition, the publish step samples exactly [B]
    transitions of the memory, gets [B] priorities from the oracle called
    with the discount [gamma ** N], appends the serialised pair as one
    record to the list [experience] of the server, and leaves the local
    memory empty. *)
Theorem publish_at_threshold (a0 : actor) (m : machine) :
  let a := self m in
  let B := _batch_size a in
  reachable a0 BeforePublish m ->
  one_priority_each ->
  rm_len (_local_memory a) = B ->
  exists samples g m',
    rm_sample (_local_memory a) B (rng m) = inr (samples, g) /\
    Permutation samples (memory (_local_memory a)) /\
    Z.of_nat (length samples) = B /\
    let prio := calc_priorities (_policy_net a) samples
                  (fpow (_gamma a0) (of_int (Z.of_nat (_nstep_return a0)))) in
    Z.of_nat (length prio) = B /\
    publish_phase m = inr m' /\
    _connect (self m') = redis_rpush (_connect a) "experience" (dumps (samples, prio)) /\
    queues (_connect (self m')) !! "experience" =
      Some (default [] (queues (_connect a) !! "experience") ++ [dumps (samples, prio)]) /\
    kv (_connect (self m')) = kv (_connect a) /\
    rm_len (_local_memory (self m')) = 0%Z.
Proof.
  intros a B Hreach Horacle Hocc.
  pose proof (reachable_run_inv _ _ _ Hreach) as Hinv.
  destruct (publish_phase_full a0 m Hinv Hocc) as (samples & g & Hs & Hperm & Hlen & Hp).
  exists samples, g. eexists. split; [exact Hs|]. split; [done|]. split; [done|].
  cbv zeta. split; [by rewrite Horacle|]. split; [exact Hp|]. cbn.
  split; [done|]. split; [apply lookup_insert_eq|done].
Qed.

Lemma nstep_emit_total (sb : deque (Transition F)) (gamma : F) (mem : ReplayMemory F) :
  (0 < maxlen sb)%nat ->
  exists mem', nstep_emit sb (gamma_table gamma (maxlen sb)) mem = inr mem'.
Proof.
  intros Hpos. destruct (decide (deque_len sb = maxlen sb)) as [Hfull|Hpart].
  - destruct (nstep_emit_full sb gamma mem Hpos Hfull) as (? & ? & _ & _ & ->). eauto.
  - rewrite nstep_emit_partial by done. eauto.
Qed.

(** A decision step goes through, and resets the episode exactly when the
    done flag it recorded is set or the step counter is above 50000. *)
Lemma play_phase_boundary (a0 : actor) (np_empty : Screen) (m : machine) :
  let i := interact np_empty m in
  let K := maxlen (_img_buf a0) in
  reachable a0 LoopHead m ->
  (0 < _nstep_return a0)%nat ->
  no_op_steps a0 = 30%Z ->
  exists m',
    play_phase np_empty m = inr m' /\
    (i_done i = true \/ (50000 < i_length_epsiode i)%Z ->
       items (_img_buf (self m')) = replicate K (initial_tile (_env (i_self i))) /\
       items (run.step_buffer (frame m')) = [] /\
       (exists n, (1 <= n)%Z /\
          _env (self m') = env_after 0 (Z.to_nat n) (env_reset (_env (i_self i)))) /\
       run.state (frame m') = items (_img_buf (self m')) /\
       run.length_epsiode (frame m') = 0%Z) /\
    (i_done i = false -> (i_length_epsiode i <= 50000)%Z ->
       _img_buf (self m') = _img_buf (i_self i) /\
       run.step_buffer (frame m') = i_step_buffer i /\
       items (run.step_buffer (frame m')) <> [] /\
       _env (self m') = _env (i_self i) /\
       run.state (frame m') = items (_img_buf (self m')) /\
       run.length_epsiode (frame m') = i_length_epsiode i).
Proof.
  intros i K Hreach Hpos H30. subst K.
  pose proof (reachable_run_inv _ _ _ Hreach) as Hinv.
  pose proof (interact_spec np_empty m) as (_ & _ & _ & Hbuf & Hns & Hsb).
  pose proof (interact_frame np_empty m) as (_ & _ & _ & _ & _ & _ & _ & _ & Hno).
  fold i in Hbuf, Hns, Hsb, Hno.
  assert (maxlen (i_step_buffer i) = _nstep_return a0) as Hmax.
  { rewrite Hsb, deque_append_maxlen. by destruct Hinv. }
  assert (maxlen (_img_buf (i_self i)) = maxlen (_img_buf a0)) as HK.
  { rewrite Hbuf, deque_append_maxlen. by destruct Hinv. }
  destruct (nstep_emit_total (i_step_buffer i) (_gamma a0) (_local_memory (i_self i)))
    as [mem Hmem]; [lia|].
  rewrite Hmax, <- (inv_gamma_nsteps _ _ Hinv) in Hmem.
  unfold play_phase. fold i. rewrite Hmem. unfold mbind, Py_bind.
  set (a := set_local_memory (i_self i) mem).
  assert (1 < no_op_steps a)%Z as Hn.
  { subst a. cbn. rewrite Hno, (inv_no_op_steps _ _ Hinv). lia. }
  unfold episode_end.
  destruct (i_done i || (50000 <? i_length_epsiode i)%Z) eqn:Hend.
  - rewrite (reset_spec a _ Hn). unfold mbind, Py_bind. eexists. split; [reflexivity|].
    split.
    + intros _. cbn. rewrite HK. split; [done|]. split; [done|].
      split; [|done]. exists (no_op_count a (i_rng i)).
      split; [apply (no_op_count_range a), Hn|]. by rewrite no_ops_env_after.
    + intros Hd Hl. rewrite Hd in Hend. cbn in Hend.
      apply Z.ltb_lt in Hend. lia.
  - eexists. split; [reflexivity|]. split.
    + intros [Hd|Hl].
      * rewrite Hd in Hend. discriminate.
      * apply orb_false_elim in Hend as [_ Hend]. apply Z.ltb_ge in Hend. lia.
    + intros _ _. cbn. repeat split; try done.
      rewrite Hsb. apply deque_append_nonempty; destruct Hinv; unfold deque_len in *; lia.
Qed.

(** C7 (as the code has it): in every run of an actor with
    [no_op_steps = 30] and a horizon of at least one step, a decision step
    goes through.  When the environment reports done on the fourth, last,
    sub-step, or the step counter of the episode (which counts sub-steps)
    is above 50000 after the step, the frame stack then holds nothing but
    [K] copies of the tile of the first frame after the reset of the
    environment, the window is empty, the environment was reset and
    stepped at least once with the no-op action, and the counter is 0
    again.  Otherwise, whatever the environment reported on the first
    three sub-steps, the frame stack and the window are the ones the step
    filled, with the new tile and the new transition in them, and the
    environment goes on from where the fourth sub-step left it. *)
Theorem episode_reset_boundary (a0 : actor) (np_empty : Screen) (m : machine) :
  let a := fst (epsilon_greedy (run.state (frame m)) (_policy_net (self m))
                  (run.eps (frame m)) (rng m)) in
  let e := _env (self m) in
  let i := interact np_empty m in
  let K := maxlen (_img_buf a0) in
  let L := (run.length_epsiode (frame m) + 4)%Z in
  reachable a0 LoopHead m ->
  (0 < _nstep_return a0)%nat ->
  no_op_steps a0 = 30%Z ->
  exists m',
    play_phase np_empty m = inr m' /\
    (done_at a 4 e = true \/ (50000 < L)%Z ->
       items (_img_buf (self m')) = replicate K (initial_tile (env_after a 4 e)) /\
       items (run.step_buffer (frame m')) = [] /\
       (exists n, (1 <= n)%Z /\
          _env (self m') = env_after 0 (Z.to_nat n) (env_reset (env_after a 4 e))) /\
       run.state (frame m') = items (_img_buf (self m')) /\
       run.length_epsiode (frame m') = 0%Z) /\
    (done_at a 4 e = false -> (L <= 50000)%Z ->
       _img_buf (self m') =
         deque_append (_img_buf (self m))
           (preproc_state (frame_at a 3 e, frame_at a 4 e)) /\
       run.step_buffer (frame m') = i_step_buffer i /\
       items (run.step_buffer (frame m')) <> [] /\
       _env (self m') = env_after a 4 e /\
       run.state (frame m') = items (_img_buf (self m')) /\
       run.length_epsiode (frame m') = L).
Proof.
  intros a e i K L Hreach Hpos H30. subst a e K L.
  pose proof (interact_spec np_empty m) as (He & Hl & Hd & Hbuf & _).
  destruct (play_phase_boundary a0 np_empty m Hreach Hpos H30) as (m' & Hp & Hreset & Hstay).
  fold i in He, Hl, Hd, Hbuf, Hreset, Hstay.
  rewrite He, Hl, Hd in Hreset. rewrite He, Hl, Hd, Hbuf in Hstay.
  exists m'. split; [exact Hp|]. split; [exact Hreset|exact Hstay].
Qed.

(** ** The frame stack *)

Lemma preproc_state_unit (screen : Screen) :
  resize_preserves_range -> scaling_into_unit -> unit_tile (preproc_state screen).
Proof.
  intros Hresize Hscale. unfold unit_tile, preproc_state. cbv zeta.
  apply Forall_forall. intros v Hv. apply list_elem_of_fmap in Hv as (w & -> & Hw).
  apply Hresize in Hw as [Hlo Hhi]. by apply Hscale.
Qed.

Lemma reachable_stack_unit (a0 : actor) (pc : PC) (m : machine) :
  resize_preserves_range -> scaling_into_unit ->
  reachable a0 pc m -> Forall unit_tile (items (_img_buf (self m))).
Proof.
  intros Hresize Hscale.
  induction 1 as [g m Hs|np m m' _ IH Hp|m m' _ IH Hp|m m' _ IH Hs|pc r m _ IH].
  - apply run_start_inversion in Hs as (_ & Hs). subst m. cbn.
    apply Forall_replicate. by apply preproc_state_unit.
  - apply play_phase_inv in Hp as (mem & _ & He).
    pose proof (interact_spec np m) as (_ & _ & _ & Hbuf & _).
    apply episode_end_inv in He as [(_ & _ & ->)|(_ & ->)]; cbn.
    + apply Forall_replicate. by apply preproc_state_unit.
    + rewrite Hbuf. apply Forall_forall. intros tile Htile.
      apply deque_append_elem in Htile as [Hold| ->].
      * revert tile Hold. by apply Forall_forall.
      * by apply preproc_state_unit.
  - by apply publish_phase_inv in Hp as [(_ & ? & ? & ? & _ & _ & ->)|(_ & ->)].
  - apply sync_phase_inv in Hs as [->| ->]; [done|]. cbn.
    pose proof (_pull_params_frame (self m)) as (_ & _ & _ & _ & _ & _ & _ & -> & _).
    done.
  - done.
Qed.

(** C6: in every state of a run of an actor made by [__init__] with buffer
    size [K], at the loop head, before the publish test and before the
    sync test, the frame stack holds exactly [K] tiles and is the current
    state; and when [resize] keeps the values of a [uint8] image within
    the range of a byte and the scaling by [1/255] maps that range into
    the unit interval, every value of every tile lies in [[0, 1]]. *)
Theorem frame_stack_invariant (actor_no : Z) (env : Env) (policy_net : Net StateDict)
    (connect : Redis) (batch_size : Z) (nstep_return : nat) (gamma : F) (buf_size : nat)
    (clip : F -> F) (target_update num_total_actors : Z) (pc : PC) (m : machine) :
  resize_preserves_range ->
  scaling_into_unit ->
  reachable (Actor_init actor_no env policy_net connect batch_size nstep_return gamma
               buf_size clip target_update num_total_actors) pc m ->
  length (items (_img_buf (self m))) = buf_size /\
  maxlen (_img_buf (self m)) = buf_size /\
  Forall unit_tile (items (_img_buf (self m))) /\
  run.state (frame m) = items (_img_buf (self m)).
Proof.
  intros Hresize Hscale Hreach.
  pose proof (reachable_run_inv _ _ _ Hreach) as Hinv.
  split; [exact (inv_stack_full _ _ Hinv)|].
  split; [exact (inv_img_maxlen _ _ Hinv)|].
  split; [by eapply reachable_stack_unit|exact (inv_state _ _ Hinv)].
Qed.

(** ** The occupancy of the local memory *)

Lemma rm_push_len (mem : ReplayMemory F) (x : Transition F) :
  (rm_len (rm_push mem x) <= rm_len mem + 1)%Z.
Proof.
  unfold rm_len, rm_push. cbv zeta. cbn [memory capacity].
  destruct (capacity mem <? length (memory mem ++ [x]))%nat;
    rewrite ?length_drop, length_app; cbn [length]; lia.
Qed.

(** At most one transition enters the local memory per decision step. *)
Lemma play_phase_occupancy (np_empty : Screen) (m m' : machine) :
  play_phase np_empty m = inr m' ->
  (rm_len (_local_memory (self m')) <= rm_len (_local_memory (self m)) + 1)%Z.
Proof.
  intros Hp. apply play_phase_inv in Hp as (mem & Hmem & He).
  pose proof (interact_frame np_empty m) as (_ & _ & _ & _ & _ & _ & Hlm & _).
  apply episode_end_frame in He as (-> & _). cbn.
  apply nstep_emit_inv in Hmem as [->|[x ->]]; rewrite Hlm; [lia|apply rm_push_len].
Qed.

Lemma reachable_occupancy (a0 : actor) (pc : PC) (m : machine) :
  (1 <= _batch_size a0)%Z -> memory (_local_memory a0) = [] ->
  reachable a0 pc m -> occupancy_bound (_batch_size a0) pc m.
Proof.
  intros HB Hempty.
  induction 1 as [g m Hs|np m m' Hr IH Hp|m m' Hr IH Hp|m m' Hr IH Hs|pc r m _ IH].
  - apply run_start_inversion in Hs as (_ & Hs). subst m.
    unfold occupancy_bound, rm_len. cbn. rewrite Hempty. cbn. lia.
  - apply play_phase_occupancy in Hp. unfold occupancy_bound in *. lia.
  - pose proof (inv_batch_size _ _ (reachable_run_inv _ _ _ Hr)) as HBm.
    unfold occupancy_bound in *.
    apply publish_phase_inv in Hp as [(_ & ? & ? & ? & _ & _ & ->)|(Hlt & ->)].
    + unfold rm_len. cbn. lia.
    + lia.
  - unfold occupancy_bound in *.
    apply sync_phase_inv in Hs as [->| ->]; [done|]. cbn.
    by pose proof (_pull_params_frame (self m)) as (_ & _ & _ & _ & _ & _ & _ & _ & -> & _).
  - by destruct pc.
Qed.

(** C10: in every state of a run of an actor made by [__init__] with a
    batch size [B >= 1], the occupancy of the local memory is at most [B],
    and below [B] at the loop head and before the sync test; a decision
    step adds at most one transition; and whenever the publish test
    succeeds the memory holds exactly [B] transitions, the sample is the
    whole memory in some order, and the clear that follows drops nothing
    that was not sampled. *)
Theorem local_memory_never_above_batch (actor_no : Z) (env : Env)
    (policy_net : Net StateDict) (connect : Redis) (batch_size : Z) (nstep_return : nat)
    (gamma : F) (buf_size : nat) (clip : F -> F) (target_update num_total_actors : Z)
    (pc : PC) (m : machine) :
  (1 <= batch_size)%Z ->
  reachable (Actor_init actor_no env policy_net connect batch_size nstep_return gamma
               buf_size clip target_update num_total_actors) pc m ->
  let occupancy := rm_len (_local_memory (self m)) in
  _batch_size (self m) = batch_size /\
  (occupancy <= batch_size)%Z /\
  (pc <> BeforePublish -> (occupancy < batch_size)%Z) /\
  (forall np_empty m', pc = LoopHead -> play_phase np_empty m = inr m' ->
     (rm_len (_local_memory (self m')) <= occupancy + 1)%Z) /\
  (pc = BeforePublish -> (batch_size <= occupancy)%Z ->
     occupancy = batch_size /\
     exists samples g m',
       rm_sample (_local_memory (self m)) batch_size (rng m) = inr (samples, g) /\
       Permutation samples (memory (_local_memory (self m))) /\
       publish_phase m = inr m' /\
       rm_len (_local_memory (self m')) = 0%Z).
Proof.
  intros HB Hreach occupancy. subst occupancy.
  pose proof (reachable_run_inv _ _ _ Hreach) as Hinv.
  pose proof (inv_batch_size _ _ Hinv) as HBm. cbn in HBm.
  pose proof (reachable_occupancy
                (Actor_init actor_no env policy_net connect batch_size nstep_return gamma
                   buf_size clip target_update num_total_actors)
                pc m HB eq_refl Hreach) as Hocc.
  cbn [Actor_init _batch_size] in Hocc.
  split; [done|]. split; [destruct pc; cbn in Hocc; lia|].
  split; [destruct pc; cbn in Hocc; (done || lia)|].
  split; [intros np m' _ Hp; by apply play_phase_occupancy in Hp|].
  intros -> Hge. cbn in Hocc.
  assert (rm_len (_local_memory (self m)) = _batch_size (self m)) as Heq by lia.
  split; [lia|].
  destruct (publish_phase_full _ m Hinv Heq) as (samples & g & Hs & Hperm & _ & Hp).
  rewrite HBm in Hs. exists samples, g. eexists.
  split; [exact Hs|]. split; [done|]. split; [exact Hp|]. reflexivity.
Qed.

(** A whole iteration leads from the loop head to the loop head. *)
Lemma reach_loop_body (a0 : actor) (np_empty : Screen) (m m' : machine) :
  reachable a0 LoopHead m -> loop_body np_empty m = inr m' -> reachable a0 LoopHead m'.
Proof.
  intros Hr Hl. unfold loop_body in Hl. py_inv Hl. subst m'.
  eapply reach_sync; [|eassumption].
  eapply reach_publish; [|eassumption].
  eapply reach_play; eassumption.
Qed.

End Facts.

(** ** Claims about the decision step and the exploration rate *)

(** C4 (as the code has it): the transition recorded for a decision step
    carries the done flag that the environment reported on the fourth,
    last, sub-step, whatever it reported on the first three. *)
Theorem done_flag_of_last_sub_step {F Env Rng StateDict : Type}
    {HF : PyFloat F} {HE : GymEnv Env F} {HR : Entropy Rng} {HL : Libs F Rng StateDict}
    (np_empty : Screen) (m : Machine F Env Rng StateDict) :
  let a := fst (epsilon_greedy (run.state (frame m)) (_policy_net (self m))
                  (run.eps (frame m)) (rng m)) in
  let e := _env (self m) in
  let i := interact np_empty m in
  i_done i = done_at a 4 e /\
  exists tr,
    i_step_buffer i = deque_append (run.step_buffer (frame m)) tr /\
    state tr = run.state (frame m) /\
    action tr = a /\
    done tr = done_at a 4 e.
Proof.
  intros a e i.
  pose proof (interact_spec np_empty m) as (_ & _ & Hd & _ & _ & Hsb).
  split; [done|]. eexists. split; [exact Hsb|]. done.
Qed.

(** C4 fails as stated: in the run of [Toy.actor0] the environment reports
    done on the second sub-step of the first decision step, and not on the
    fourth; the recorded transition has done = false. *)
Lemma done_on_second_sub_step_lost :
  let a := fst (epsilon_greedy (run.state (frame Toy.m0)) (_policy_net (self Toy.m0))
                  (run.eps (frame Toy.m0)) (rng Toy.m0)) in
  done_at a 2 (_env (self Toy.m0)) = true /\
  i_done (interact Toy.junk Toy.m0) = false /\
  map done (items (i_step_buffer (interact Toy.junk Toy.m0))) = [false].
Proof. vm_compute. repeat split. Qed.

(** C3: in real arithmetic the exploration rate is 0.4 for a single actor
    and [0.4 ** (1 + (actor_no - 1) / (num_total_actors - 1) * 7.0)]
    otherwise; among 4 actors it is 0.4 for actor 1 and [0.4 ** 8] for
    actor 4; and in every state of a run, whatever the arithmetic, the
    variable [eps] holds the rate computed before the loop. *)
Theorem exploration_rate_schedule :
  (forall actor_no, exploration_rate (F:=R) actor_no 1 = 0.4%R) /\
  (forall actor_no num_total_actors, num_total_actors <> 1%Z ->
     exploration_rate (F:=R) actor_no num_total_actors =
     Rpower 0.4 (1 + (IZR actor_no - 1) / (IZR num_total_actors - 1) * 7.0)%R) /\
  exploration_rate (F:=R) 1 4 = 0.4%R /\
  exploration_rate (F:=R) 4 4 = (0.4 ^ 8)%R /\
  (forall (F Env Rng StateDict : Type) (HF : PyFloat F) (HE : GymEnv Env F)
          (HR : Entropy Rng) (HL : Libs F Rng StateDict)
          (a0 : Actor F Env StateDict) (pc : PC) (m : Machine F Env Rng StateDict),
     reachable a0 pc m ->
     run.eps (frame m) = exploration_rate (_actor_no a0) (_num_total_actors a0)).
Proof.
  split; [exact eps_real_one_actor|]. split; [exact eps_real_formula|].
  split; [exact eps_real_first|]. split; [exact eps_real_last|].
  intros F Env Rng StateDict HF HE HR HL a0 pc m Hreach.
  exact (inv_eps _ _ (reachable_run_inv _ _ _ Hreach)).
Qed.

(** ** The small instance *)

Lemma toy_reach_m0 : reachable Toy.actor0 LoopHead Toy.m0.
Proof. apply (reach_start _ 7%N). cbv -[np_zeros]. reflexivity. Qed.

Lemma toy_reach_m1 : reachable Toy.actor0 LoopHead Toy.m1.
Proof.
  apply (reach_loop_body _ Toy.junk Toy.m0); [exact toy_reach_m0|].
  vm_compute. reflexivity.
Qed.

Lemma toy_reach_m2 : reachable Toy.actor0 LoopHead Toy.m2.
Proof.
  apply (reach_loop_body _ Toy.junk Toy.m1); [exact toy_reach_m1|].
  vm_compute. reflexivity.
Qed.

Lemma toy_reach_m2_played : reachable Toy.actor0 BeforePublish Toy.m2_played.
Proof.
  apply (reach_play _ Toy.junk Toy.m2); [exact toy_reach_m2|].
  vm_compute. reflexivity.
Qed.

Lemma toy_one_priority_each : one_priority_each (HL:=Toy.libs).
Proof. intros net samples gamma. cbn. apply length_map. Qed.

Lemma toy_resize_preserves_range : resize_preserves_range (HF:=Q_float) (HL:=Toy.libs).
Proof.
  intros img v Hv. cbn in Hv. apply list_elem_of_fmap in Hv as (b & -> & _).
  pose proof (Byte.to_N_bounded b) as Hb.
  unfold fle. cbn. rewrite !negb_false_iff, !Qle_bool_iff, <- !Zle_Qle. lia.
Qed.

Lemma toy_scaling_into_unit : scaling_into_unit (HF:=Q_float).
Proof.
  intros v. unfold fle. cbn. rewrite !negb_false_iff, !Qle_bool_iff. intros Hlo Hhi.
  split.
  - apply Qle_shift_div_l; [reflexivity|]. by rewrite Qmult_0_l.
  - apply Qle_shift_div_r; [reflexivity|]. by rewrite Qmult_1_l.
Qed.

(** ** The claims on the small instance *)

(** C1 on the second decision step of [Toy.actor0]: the window is full. *)
Lemma nstep_transition_emitted_witness :
  reachable Toy.actor0 LoopHead Toy.m1 /\
  exists pushed : ReplayMemory Q,
    nstep_emit (i_step_buffer (interact Toy.junk Toy.m1))
      (run.gamma_nsteps (frame Toy.m1))
      (_local_memory (i_self (interact Toy.junk Toy.m1))) = inr pushed /\
    length (memory pushed) = 1%nat.
Proof.
  split; [exact toy_reach_m1|].
  destruct (nstep_transition_emitted Toy.actor0 Toy.junk Toy.m1 toy_reach_m1)
    as (first & last & _ & _ & Hemit & _).
  - vm_compute. lia.
  - vm_compute. reflexivity.
  - eexists. split; [exact Hemit|]. vm_compute. reflexivity.
Defined.

(** C2 on the third decision step of [Toy.actor0]: two transitions wait. *)
Lemma publish_at_threshold_witness :
  reachable Toy.actor0 BeforePublish Toy.m2_played /\
  rm_len (_local_memory (self Toy.m2_played)) = _batch_size (self Toy.m2_played) /\
  exists m', publish_phase Toy.m2_played = inr m' /\
             rm_len (_local_memory (self m')) = 0%Z.
Proof.
  split; [exact toy_reach_m2_played|]. split; [vm_compute; reflexivity|].
  destruct (publish_at_threshold Toy.actor0 Toy.m2_played toy_reach_m2_played
              toy_one_priority_each)
    as (samples & g & m' & _ & _ & _ & _ & Hp & _ & _ & _ & Hzero).
  - vm_compute. reflexivity.
  - exists m'. split; [exact Hp|exact Hzero].
Defined.

(** C3 for actor 2 of 4, and on the run of [Toy.actor0]. *)
Lemma exploration_rate_schedule_witness :
  exploration_rate (F:=R) 2 4 = Rpower 0.4 (1 + (IZR 2 - 1) / (IZR 4 - 1) * 7.0)%R /\
  run.eps (frame Toy.m2) = exploration_rate (_actor_no Toy.actor0)
                             (_num_total_actors Toy.actor0).
Proof.
  destruct exploration_rate_schedule as (_ & Hformula & _ & _ & Hconst).
  split.
  - apply Hformula. lia.
  - apply (Hconst _ _ _ _ _ _ _ _ Toy.actor0 LoopHead Toy.m2), toy_reach_m2.
Defined.

(** C5 on [Toy.actor0] with the random source at 28, the largest residue:
    29 no-op steps. *)
Lemma no_op_count_below_30_witness :
  no_op_steps Toy.actor0 = 30%Z /\
  exists a', _initialize Toy.actor0 28%N = inr (a', 29%N) /\
             _env a' = env_after 0 29 0%nat.
Proof.
  split; [reflexivity|].
  destruct (no_op_count_below_30 Toy.actor0 28%N eq_refl) as (a' & Hi & He & _).
  exists a'. split; [exact Hi|exact He].
Defined.

(** C6 on the run of [Toy.actor0], whose buffer size is 2. *)
Lemma frame_stack_invariant_witness :
  reachable Toy.actor0 BeforePublish Toy.m2_played /\
  length (items (_img_buf (self Toy.m2_played))) = 2%nat /\
  Forall unit_tile (items (_img_buf (self Toy.m2_played))).
Proof.
  split; [exact toy_reach_m2_played|].
  destruct (frame_stack_invariant 1 0%nat (mkNet [] true) Toy.server 2 2 (1 # 2) 2
              default_clip 2 4 BeforePublish Toy.m2_played
              toy_resize_preserves_range toy_scaling_into_unit toy_reach_m2_played)
    as (Hlen & _ & Hunit & _).
  split; [exact Hlen|exact Hunit].
Defined.

(** C7 on the first and on the third decision step of [Toy.actor0]: the
    third ends an episode. *)
Lemma episode_reset_boundary_witness :
  (exists m', play_phase Toy.junk Toy.m0 = inr m' /\
              run.step_buffer (frame m') = i_step_buffer (interact Toy.junk Toy.m0)) /\
  (exists m', play_phase Toy.junk Toy.m2 = inr m' /\
              items (run.step_buffer (frame m')) = []).
Proof.
  split.
  - destruct (episode_reset_boundary Toy.actor0 Toy.junk Toy.m0 toy_reach_m0)
      as (m' & Hp & _ & Hstay).
    + vm_compute. lia.
    + reflexivity.
    + exists m'. split; [exact Hp|]. apply Hstay.
      * vm_compute. reflexivity.
      * vm_compute. discriminate.
  - destruct (episode_reset_boundary Toy.actor0 Toy.junk Toy.m2 toy_reach_m2)
      as (m' & Hp & Hreset & _).
    + vm_compute. lia.
    + reflexivity.
    + exists m'. split; [exact Hp|]. apply Hreset. left. vm_compute. reflexivity.
Defined.

(** C8 on [Toy.actor0], whose server holds nothing, and on the same actor
    once the learner has stored a blob. *)
Lemma pull_params_effect_witness :
  _pull_params Toy.actor0 = Toy.actor0 /\
  params (_policy_net
            (_pull_params (set_connect Toy.actor0
                             (mkRedis (<["params" := [Byte.x2a]]> ∅) ∅)))) = [Byte.x2a].
Proof.
  split.
  - apply (pull_params_effect Toy.actor0). vm_compute. reflexivity.
  - destruct (pull_params_effect
                (set_connect Toy.actor0 (mkRedis (<["params" := [Byte.x2a]]> ∅) ∅)))
      as (_ & Hsome & _).
    destruct (Hsome [Byte.x2a]) as (_ & Hparams & _); [vm_compute; reflexivity|].
    exact Hparams.
Defined.

(** C10 on the run of [Toy.actor0], whose batch size is 2. *)
Lemma local_memory_never_above_batch_witness :
  reachable Toy.actor0 BeforePublish Toy.m2_played /\
  (rm_len (_local_memory (self Toy.m2_played)) <= 2)%Z.
Proof.
  split; [exact toy_reach_m2_played|].
  assert (1 <= 2)%Z as HB by lia.
  destruct (local_memory_never_above_batch 1 0%nat (mkNet [] true) Toy.server 2 2 (1 # 2) 2
              default_clip 2 4 BeforePublish Toy.m2_played HB toy_reach_m2_played)
    as (_ & Hocc & _).
  exact Hocc.
Defined.

(** * Further properties of the actor *)

Section MoreFacts.
Context {F Env Rng StateDict : Type}.
Context {HF : PyFloat F} {HE : GymEnv Env F} {HR : Entropy Rng} {HL : Libs F Rng StateDict}.

#[local] Abbreviation actor := (Actor F Env StateDict).
#[local] Abbreviation machine := (Machine F Env Rng StateDict).

(** ** Reward and clipping *)

Lemma frame_repeat_reward (np_empty : Screen) (e : Env) (a : Z) (len : Z) (ng : Frame) :
  r_reward (frame_repeat np_empty e a len ng) =
  fadd (fadd (fadd (fadd (of_int 0) (reward_at a 1 e)) (reward_at a 2 e)) (reward_at a 3 e))
       (reward_at a 4 e).
Proof.
  unfold frame_repeat, reward_at, env_after.
  change (py_range 4) with [0; 1; 2; 3]%Z. cbn [fold_left Nat.iter nat_rect Nat.sub].
  unfold sub_step. cbn [r_env r_length_epsiode r_reward r_done r_screen_temp].
  destruct (env_step e a) as [[e1 r1] d1].
  cbn [fst snd r_env r_length_epsiode r_reward r_done r_screen_temp Z.eqb Pos.eqb].
  destruct (env_step e1 a) as [[e2 r2] d2].
  cbn [fst snd r_env r_length_epsiode r_reward r_done r_screen_temp Z.eqb Pos.eqb].
  destruct (env_step e2 a) as [[e3 r3] d3].
  cbn [fst snd r_env r_length_epsiode r_reward r_done r_screen_temp Z.eqb Pos.eqb].
  destruct (env_step e3 a) as [[e4 r4] d4].
  reflexivity.
Qed.

(** X1: the reward of the transition recorded for a decision step is the
    clip function applied once to the sum of the rewards of the four
    sub-steps, added in their order to the int 0; the single rewards are
    not clipped. *)
Theorem recorded_reward_is_clipped_sum (np_empty : Screen) (m : machine) :
  let a := fst (epsilon_greedy (run.state (frame m)) (_policy_net (self m))
                  (run.eps (frame m)) (rng m)) in
  let e := _env (self m) in
  exists tr,
    i_step_buffer (interact np_empty m) = deque_append (run.step_buffer (frame m)) tr /\
    reward tr =
      _clip (self m)
        (fadd (fadd (fadd (fadd (of_int 0) (reward_at a 1 e)) (reward_at a 2 e))
                    (reward_at a 3 e))
              (reward_at a 4 e)).
Proof.
  intros a e. pose proof (interact_spec np_empty m) as (_ & _ & _ & _ & _ & Hsb).
  eexists. split; [exact Hsb|]. cbn [reward]. by rewrite frame_repeat_reward.
Qed.

(** X2: when [<] is asymmetric and 1 is not below -1, the default clip
    returns a value between -1 and 1 for every input, and returns the
    input itself when it lies strictly above -1 and not above 1. *)
Theorem default_clip_range (x : F) :
  fltb_asymmetric ->
  fltb (flit 1) (flit (-1)) = false ->
  fle (flit (-1)) (default_clip x) /\
  fle (default_clip x) (flit 1) /\
  (fltb (flit (-1)) x = true -> fltb (flit 1) x = false -> default_clip x = x).
Proof.
  intros Hasym H1. unfold default_clip, py_min, py_max, fle.
  assert (forall u : F, fltb u u = false) as Hirr.
  { intros u. destruct (fltb u u) eqn:Hu; [|done]. by rewrite (Hasym _ _ Hu) in Hu. }
  destruct (fltb (flit (-1)) x) eqn:Hlo.
  - destruct (fltb (flit 1) x) eqn:Hhi.
    + repeat split; [done|apply Hirr|discriminate].
    + repeat split; [by apply Hasym|done].
  - rewrite H1. repeat split; [apply Hirr|done|discriminate].
Qed.

(** ** Preprocessing *)

Lemma byte_to_N_inj (x y : Byte.byte) : Byte.to_N x = Byte.to_N y -> x = y.
Proof.
  intros Heq. pose proof (Byte.of_to_N x) as Hx. rewrite Heq, Byte.of_to_N in Hx.
  congruence.
Qed.

Lemma byte_max_comm (x y : Byte.byte) : byte_max x y = byte_max y x.
Proof.
  unfold byte_max.
  destruct (N.ltb_spec (Byte.to_N x) (Byte.to_N y)),
           (N.ltb_spec (Byte.to_N y) (Byte.to_N x)); try done; try lia.
  apply byte_to_N_inj. lia.
Qed.

Lemma byte_max_idem (x : Byte.byte) : byte_max x x = x.
Proof. unfold byte_max. by destruct (_ <? _)%N. Qed.

Lemma byte_max_spec (x y : Byte.byte) :
  Byte.to_N (byte_max x y) = N.max (Byte.to_N x) (Byte.to_N y).
Proof. unfold byte_max. destruct (N.ltb_spec (Byte.to_N x) (Byte.to_N y)); lia. Qed.

Lemma amax_dstack_comm (a b : Frame) : amax_dstack a b = amax_dstack b a.
Proof.
  unfold amax_dstack. revert b. induction a as [|x a IH]; intros [|y b]; cbn; try done.
  by rewrite byte_max_comm, IH.
Qed.

Lemma amax_dstack_idem (a : Frame) : amax_dstack a a = a.
Proof.
  unfold amax_dstack. induction a as [|x a IH]; cbn; [done|].
  by rewrite byte_max_idem, IH.
Qed.

(** X3: the tile does not depend on the order of the two frames, every
    pixel that is resized is the larger of the two pixels at its place,
    and a frame paired with itself (as [_initialize] does) is resized as
    it is. *)
Theorem preproc_state_max_of_pair (a b : Frame) :
  preproc_state (a, b) = preproc_state (b, a) /\
  preproc_state (a, a) = map (fun v => fdiv (f32 v) (flit 255)) (resize a) /\
  (forall i x y, a !! i = Some x -> b !! i = Some y ->
     exists z, amax_dstack a b !! i = Some z /\
               Byte.to_N z = N.max (Byte.to_N x) (Byte.to_N y)).
Proof.
  unfold preproc_state. cbn [fst snd]. split; [by rewrite amax_dstack_comm|].
  split; [by rewrite amax_dstack_idem|].
  intros i x y Hx Hy. exists (byte_max x y). split; [|apply byte_max_spec].
  unfold amax_dstack. apply lookup_zip_with_Some. by exists x, y.
Qed.

(** ** Counters and the window *)

(** The counters of [run] in every state: the step counter of the episode
    is a multiple of 4 between 0 and 50000, the window holds as many
    transitions as the episode has decision steps, up to the horizon, [t]
    is not negative and [sum_rwd] is still 0. *)
Lemma reachable_counters (a0 : actor) (pc : PC) (m : machine) :
  reachable a0 pc m ->
  let L := run.length_epsiode (frame m) in
  (0 <= L <= 50000)%Z /\ (L mod 4 = 0)%Z /\
  Z.of_nat (deque_len (run.step_buffer (frame m))) =
    Z.min (Z.of_nat (_nstep_return a0)) (L / 4) /\
  (0 <= run.t (frame m))%Z /\ (0 <= run.n_episode (frame m))%Z /\
  run.sum_rwd (frame m) = 0%Z.
Proof.
  induction 1 as [g m Hs|np m m' Hr IH Hp|m m' Hr IH Hp|m m' Hr IH Hs|pc r m _ IH];
    cbv zeta in *.
  - apply run_start_inversion in Hs as (_ & Hs). subst m. cbn.
    repeat split; try lia. change (0 / 4)%Z with 0%Z. lia.
  - destruct IH as (Hrange & Hmod & Hlen & Ht & Hn & Hsum).
    pose proof (reachable_run_inv _ _ _ Hr) as Hinv.
    apply play_phase_inv in Hp as (mem & _ & He).
    pose proof (interact_spec np m) as (_ & Hl & _ & _ & _ & Hsb).
    apply episode_end_inv in He as [(_ & _ & ->)|(Hend & ->)]; cbn.
    + repeat split; try lia. change (0 / 4)%Z with 0%Z. lia.
    + apply orb_false_elim in Hend as [_ Hend]. apply Z.ltb_ge in Hend.
      rewrite Hl in *.
      assert (((run.length_epsiode (frame m) + 4) / 4 =
               run.length_epsiode (frame m) / 4 + 1)%Z) as Hdiv.
      { replace (run.length_epsiode (frame m) + 4)%Z
          with (run.length_epsiode (frame m) + 1 * 4)%Z by lia.
        apply Z.div_add. lia. }
      assert (((run.length_epsiode (frame m) + 4) mod 4 = 0)%Z) as Hmod'.
      { replace (run.length_epsiode (frame m) + 4)%Z
          with (run.length_epsiode (frame m) + 1 * 4)%Z by lia.
        by rewrite Z.mod_add by lia. }
      repeat split; try lia.
      unfold deque_len in *. rewrite Hsb, deque_append_length, Hdiv.
      * rewrite (inv_window_maxlen _ _ Hinv). lia.
      * pose proof (inv_window_len _ _ Hinv) as Hle. unfold deque_len in Hle.
        rewrite (inv_window_maxlen _ _ Hinv). lia.
  - by apply publish_phase_inv in Hp as [(_ & ? & ? & ? & _ & _ & ->)|(_ & ->)].
  - apply sync_phase_inv in Hs as [->| ->]; cbn; repeat split; try tauto; lia.
  - done.
Qed.

(** X4: in every state of a run the step counter of the episode is a
    multiple of 4 between 0 and 50000 (an episode is cut after at most
    12501 decision steps), the window holds [min(N, counter / 4)]
    transitions, the loop counter [t] and the episode counter are not
    negative, and [sum_rwd] is 0: it is never updated. *)
Theorem counters_invariant (a0 : actor) (pc : PC) (m : machine) :
  reachable a0 pc m ->
  let L := run.length_epsiode (frame m) in
  (0 <= L <= 50000)%Z /\ (L mod 4 = 0)%Z /\
  Z.of_nat (deque_len (run.step_buffer (frame m))) =
    Z.min (Z.of_nat (_nstep_return a0)) (L / 4) /\
  (0 <= run.t (frame m))%Z /\ (0 <= run.n_episode (frame m))%Z /\
  run.sum_rwd (frame m) = 0%Z.
Proof. apply reachable_counters. Qed.

(** X5: a decision step pushes an n-step transition exactly when the
    episode has had at least [N] decision steps, this one included; during
    the first [N - 1] decision steps after a reset the local memory is
    left as it is. *)
Theorem emission_needs_full_window (a0 : actor) (np_empty : Screen) (m m' : machine) :
  let L := run.length_epsiode (frame m) in
  let N := Z.of_nat (_nstep_return a0) in
  reachable a0 LoopHead m ->
  play_phase np_empty m = inr m' ->
  ((L / 4 + 1 < N)%Z -> _local_memory (self m') = _local_memory (self m)) /\
  ((0 < N <= L / 4 + 1)%Z ->
     exists x, _local_memory (self m') = rm_push (_local_memory (self m)) x).
Proof.
  intros L N Hreach Hp. subst L N.
  pose proof (reachable_run_inv _ _ _ Hreach) as Hinv.
  pose proof (reachable_counters _ _ _ Hreach) as (_ & _ & Hlen & _).
  apply play_phase_inv in Hp as (mem & Hmem & He).
  pose proof (interact_spec np_empty m) as (_ & _ & _ & _ & _ & Hsb).
  pose proof (interact_frame np_empty m) as (_ & _ & _ & _ & _ & _ & Hlm & _).
  apply episode_end_frame in He as (-> & _). cbn [_local_memory set_local_memory].
  rewrite Hlm in Hmem.
  assert (maxlen (i_step_buffer (interact np_empty m)) = _nstep_return a0) as Hmax.
  { rewrite Hsb, deque_append_maxlen. by destruct Hinv. }
  assert (deque_len (i_step_buffer (interact np_empty m)) =
          Nat.min (S (deque_len (run.step_buffer (frame m)))) (_nstep_return a0)) as Hwin.
  { unfold deque_len. rewrite Hsb, deque_append_length.
    - by rewrite (inv_window_maxlen _ _ Hinv).
    - pose proof (inv_window_len _ _ Hinv) as Hle. unfold deque_len in Hle.
      rewrite (inv_window_maxlen _ _ Hinv). lia. }
  split.
  - intros Hearly. rewrite nstep_emit_partial in Hmem by lia. by injection Hmem as <-.
  - intros Hlate. rewrite (inv_gamma_nsteps _ _ Hinv), <- Hmax in Hmem.
    destruct (nstep_emit_full (i_step_buffer (interact np_empty m)) (_gamma a0)
                (_local_memory (self m))) as (first & last & _ & _ & Hemit); [lia|lia|].
    rewrite Hemit in Hmem. injection Hmem as <-. eauto.
Qed.

(** ** The window is a path *)

Lemma chained_snoc (w : list (Transition F)) (tr : Transition F) :
  chained w -> (forall p, last w = Some p -> next_state p = state tr) ->
  chained (w ++ [tr]).
Proof.
  induction w as [|x w IH]; intros Hc Hlast; [done|].
  destruct w as [|y w].
  - cbn. split; [|done]. by apply Hlast.
  - cbn in Hc. destruct Hc as [Hxy Hc]. cbn [app chained]. split; [done|].
    apply IH; [done|]. intros p Hp. apply Hlast. exact Hp.
Qed.

Lemma chained_drop_1 (w : list (Transition F)) : chained w -> chained (drop 1 w).
Proof. destruct w as [|x [|y w]]; cbn; try done. by intros [_ ?]. Qed.

Lemma last_drop_1 {A : Type} (w : list A) (x : A) :
  last (drop 1 w) = Some x -> last w = Some x.
Proof. destruct w as [|y [|z w]]; cbn; done. Qed.

(** X6: in every state of a run the transitions of the window form a
    path of consecutive decision steps: each one starts in the state its
    predecessor ended in, and the newest one ended in the current state.
    So the n-step transition built from a full window joins the start of
    a real sequence of [N] decision steps to its end. *)
Theorem window_is_chained (a0 : actor) (pc : PC) (m : machine) :
  reachable a0 pc m ->
  chained (items (run.step_buffer (frame m))) /\
  (forall tr, last (items (run.step_buffer (frame m))) = Some tr ->
     next_state tr = run.state (frame m)).
Proof.
  induction 1 as [g m Hs|np m m' Hr IH Hp|m m' Hr IH Hp|m m' Hr IH Hs|pc r m _ IH].
  - apply run_start_inversion in Hs as (_ & Hs). subst m. by cbn.
  - destruct IH as [Hc Hlast].
    apply play_phase_inv in Hp as (mem & _ & He).
    pose proof (interact_spec np m) as (_ & _ & _ & _ & _ & Hsb).
    apply episode_end_inv in He as [(_ & _ & ->)|(_ & ->)]; cbn; [done|].
    rewrite Hsb. unfold deque_append. cbv zeta. cbn [items].
    match goal with
    | |- context [items (run.step_buffer (frame m)) ++ [?t]] => set (tr := t)
    end.
    assert (chained (items (run.step_buffer (frame m)) ++ [tr])) as Hc'.
    { apply chained_snoc; [done|]. intros p Hp. by apply Hlast. }
    assert (last (items (run.step_buffer (frame m)) ++ [tr]) = Some tr) as Hl'
      by apply last_snoc.
    destruct (_ <? _)%nat.
    + split; [by apply chained_drop_1|]. intros tr' Htr'.
      apply last_drop_1 in Htr'. rewrite Hl' in Htr'. by injection Htr' as <-.
    + split; [done|]. intros tr' Htr'. rewrite Hl' in Htr'. by injection Htr' as <-.
  - by apply publish_phase_inv in Hp as [(_ & ? & ? & ? & _ & _ & ->)|(_ & ->)].
  - by apply sync_phase_inv in Hs as [->| ->].
  - done.
Qed.

(** ** When the loop raises and when it does not *)

Lemma reachable_target_update (a0 : actor) (pc : PC) (m : machine) :
  reachable a0 pc m -> _target_update (self m) = _target_update a0.
Proof.
  induction 1 as [g m Hs|np m m' Hr IH Hp|m m' Hr IH Hp|m m' Hr IH Hs|pc r m _ IH].
  - apply run_start_inversion in Hs as (_ & Hs). by subst m.
  - apply play_phase_inv in Hp as (mem & _ & He).
    assert (_target_update (i_self (interact np m)) = _target_update (self m)) as Hi.
    { unfold interact. by destruct (epsilon_greedy _ _ _ _). }
    apply episode_end_inv in He as [(_ & _ & ->)|(_ & ->)]; cbn; congruence.
  - by apply publish_phase_inv in Hp as [(_ & ? & ? & ? & _ & _ & ->)|(_ & ->)].
  - apply sync_phase_inv in Hs as [->| ->]; [done|]. cbn. rewrite <- IH.
    unfold _pull_params. by destruct (redis_get _ _).
  - done.
Qed.

Lemma play_phase_returns (a0 : actor) (np_empty : Screen) (m : machine) :
  run_inv a0 m -> (0 < _nstep_return a0)%nat -> (1 < no_op_steps a0)%Z ->
  exists m', play_phase np_empty m = inr m' /\ run.t (frame m') = run.t (frame m).
Proof.
  intros Hinv Hpos Hno.
  pose proof (interact_spec np_empty m) as (_ & _ & _ & _ & _ & Hsb).
  pose proof (interact_frame np_empty m) as (_ & _ & _ & _ & _ & _ & _ & _ & Hn).
  assert (maxlen (i_step_buffer (interact np_empty m)) = _nstep_return a0) as Hmax.
  { rewrite Hsb, deque_append_maxlen. by destruct Hinv. }
  destruct (nstep_emit_total (i_step_buffer (interact np_empty m)) (_gamma a0)
              (_local_memory (i_self (interact np_empty m)))) as [mem Hmem]; [lia|].
  rewrite Hmax, <- (inv_gamma_nsteps _ _ Hinv) in Hmem.
  unfold play_phase. rewrite Hmem. unfold mbind, Py_bind, episode_end.
  destruct (_ || _).
  - rewrite reset_spec by (cbn; rewrite Hn, (inv_no_op_steps _ _ Hinv); lia).
    unfold mbind, Py_bind. eexists. split; reflexivity.
  - eexists. split; reflexivity.
Qed.

Lemma publish_phase_returns (a0 : actor) (m : machine) :
  run_inv a0 m -> (0 <= _batch_size a0)%Z ->
  exists m', publish_phase m = inr m' /\ frame m' = frame m /\
             _target_update (self m') = _target_update (self m).
Proof.
  intros Hinv HB. unfold publish_phase.
  destruct (Z.leb_spec (_batch_size (self m)) (rm_len (_local_memory (self m))))
    as [Hle|Hlt]; [|by eexists].
  destruct (random_sample_spec (memory (_local_memory (self m))) (_batch_size (self m))
              (rng m)) as (samples & g & rest & Hs & _).
  { rewrite (inv_batch_size _ _ Hinv). unfold rm_len in Hle.
    rewrite (inv_batch_size _ _ Hinv) in Hle. lia. }
  unfold rm_sample. rewrite Hs, (inv_gamma_nsteps _ _ Hinv), gamma_table_last.
  unfold mbind, Py_bind. eexists. repeat split.
Qed.

Lemma run_start_returns (a0 : actor) (g : Rng) :
  (1 < no_op_steps a0)%Z ->
  returns (gamma_nsteps_of (_gamma a0) (_nstep_return a0)) ->
  returns (exploration_rate_of (_actor_no a0) (_num_total_actors a0)) ->
  exists m, run_start a0 g = inr m /\ reachable a0 LoopHead m.
Proof.
  intros Hno [gammas Hg] [eps He].
  assert (exists m, run_start a0 g = inr m) as [m Hm].
  { unfold run_start. rewrite reset_spec by done. unfold mbind, Py_bind. cbn.
    rewrite Hg, He. by eexists. }
  exists m. split; [done|]. by apply (reach_start _ g).
Qed.

Lemma loop_body_returns (a0 : actor) (np_empty : Screen) (m : machine) :
  (0 < _nstep_return a0)%nat -> (1 < no_op_steps a0)%Z ->
  (0 <= _batch_size a0)%Z -> _target_update a0 <> 0%Z ->
  reachable a0 LoopHead m ->
  exists m', loop_body np_empty m = inr m' /\ reachable a0 LoopHead m' /\
             run.t (frame m') = (run.t (frame m) + 1)%Z.
Proof.
  intros HN Hno HB HT Hreach.
  pose proof (reachable_run_inv _ _ _ Hreach) as Hinv.
  destruct (play_phase_returns a0 np_empty m Hinv) as (m1 & Hp & Ht1); [done|done|].
  pose proof (reach_play _ _ _ _ Hreach Hp) as Hr1.
  destruct (publish_phase_returns a0 m1 (reachable_run_inv _ _ _ Hr1))
    as (m2 & Hpub & Hf2 & _); [done|].
  pose proof (reach_publish _ _ _ Hr1 Hpub) as Hr2.
  pose proof (reachable_target_update _ _ _ Hr2) as HT2.
  assert (exists m3, sync_phase m2 = inr m3 /\ run.t (frame m3) = run.t (frame m2))
    as (m3 & Hs & Ht3).
  { unfold sync_phase. rewrite HT2.
    destruct (0 <? run.t (frame m2))%Z; [|by eexists].
    destruct (Z.eqb_spec (_target_update a0) 0); [done|].
    destruct (_ =? _)%Z; by eexists. }
  exists (next_t m3). split.
  - unfold loop_body. rewrite Hp. unfold mbind, Py_bind. by rewrite Hpub, Hs.
  - split; [by eapply reach_sync|]. cbn. by rewrite Ht3, Hf2, Ht1.
Qed.

(** X7: for an actor made by [__init__] with a horizon of at least one
    step, a batch size that is not negative and a sync period that is not
    0, the code of the actor raises only where the powers of lines 91 and
    100 are computed: when these two computations return, [run] reaches
    its loop, and from every state at the loop head the next iteration
    completes. *)
Theorem loop_never_raises (actor_no : Z) (env : Env) (policy_net : Net StateDict)
    (connect : Redis) (batch_size : Z) (nstep_return : nat) (gamma : F) (buf_size : nat)
    (clip : F -> F) (target_update num_total_actors : Z) :
  let a0 := Actor_init actor_no env policy_net connect batch_size nstep_return gamma
              buf_size clip target_update num_total_actors in
  (0 < nstep_return)%nat ->
  (0 <= batch_size)%Z ->
  target_update <> 0%Z ->
  (returns (gamma_nsteps_of gamma nstep_return) ->
   returns (exploration_rate_of actor_no num_total_actors) ->
   forall g, exists m, run_start a0 g = inr m /\ reachable a0 LoopHead m) /\
  (forall g m, run_start a0 g = inr m ->
     returns (gamma_nsteps_of gamma nstep_return) /\
     returns (exploration_rate_of actor_no num_total_actors)) /\
  (forall np_empty m, reachable a0 LoopHead m ->
     exists m', loop_body np_empty m = inr m' /\ reachable a0 LoopHead m' /\
                run.t (frame m') = (run.t (frame m) + 1)%Z).
Proof.
  intros a0 HN HB HT. split; [|split].
  - intros Hg He g. apply run_start_returns; [cbn; lia|done|done].
  - intros g m Hm. unfold run_start in Hm. py_inv Hm. destruct p as [[a1 g1] st].
    apply reset_inv in E as (_ & -> & -> & ->). cbn in Hm. py_inv Hm.
    unfold returns. split; eexists; reflexivity.
  - intros np m Hreach. apply loop_body_returns; try done; cbn; lia.
Qed.

(** X8: with [nstep_return = 0] the window never holds anything, the test
    of line 126 succeeds all the same, and [step_buffer[0]] raises
    [IndexError] in the first decision step. *)
Theorem zero_horizon_raises (a0 : actor) (np_empty : Screen) (m : machine) :
  _nstep_return a0 = 0%nat ->
  reachable a0 LoopHead m ->
  play_phase np_empty m = inl IndexError /\ loop_body np_empty m = inl IndexError.
Proof.
  intros HN Hreach. pose proof (reachable_run_inv _ _ _ Hreach) as Hinv.
  pose proof (interact_spec np_empty m) as (_ & _ & _ & _ & _ & Hsb).
  pose proof (inv_window_maxlen _ _ Hinv) as Hmax.
  pose proof (inv_window_len _ _ Hinv) as Hlen. unfold deque_len in Hlen.
  rewrite HN in Hmax, Hlen.
  assert (items (run.step_buffer (frame m)) = []) as Hnil.
  { destruct (items (run.step_buffer (frame m))); [done|cbn in Hlen; lia]. }
  assert (play_phase np_empty m = inl IndexError) as Hp.
  { unfold play_phase, nstep_emit, deque_len, deque_index. rewrite Hsb.
    unfold deque_append. cbv zeta. cbn [items maxlen]. rewrite Hnil, Hmax. reflexivity. }
  split; [done|]. unfold loop_body. by rewrite Hp.
Qed.

(** X9: with [target_update = 0] the sync test divides by zero as soon as
    [t] is positive: an actor made by [__init__] with a horizon of at
    least one step and a batch size that is not negative completes the
    iteration with [t = 0] and raises [ZeroDivisionError] in every later
    one. *)
Theorem zero_sync_period_raises (actor_no : Z) (env : Env) (policy_net : Net StateDict)
    (connect : Redis) (batch_size : Z) (nstep_return : nat) (gamma : F) (buf_size : nat)
    (clip : F -> F) (num_total_actors : Z) (np_empty : Screen) (m : machine) :
  let a0 := Actor_init actor_no env policy_net connect batch_size nstep_return gamma
              buf_size clip 0 num_total_actors in
  (0 < nstep_return)%nat ->
  (0 <= batch_size)%Z ->
  reachable a0 LoopHead m ->
  (run.t (frame m) = 0%Z -> exists m', loop_body np_empty m = inr m') /\
  ((0 < run.t (frame m))%Z -> loop_body np_empty m = inl ZeroDivisionError).
Proof.
  intros a0 HN HB Hreach.
  pose proof (reachable_run_inv _ _ _ Hreach) as Hinv.
  destruct (play_phase_returns a0 np_empty m Hinv) as (m1 & Hp & Ht1); [done|cbn; lia|].
  pose proof (reach_play _ _ _ _ Hreach Hp) as Hr1.
  destruct (publish_phase_returns a0 m1 (reachable_run_inv _ _ _ Hr1))
    as (m2 & Hpub & Hf2 & _); [done|].
  pose proof (reach_publish _ _ _ Hr1 Hpub) as Hr2.
  pose proof (reachable_target_update _ _ _ Hr2) as HT2. cbn in HT2.
  unfold loop_body. rewrite Hp. unfold mbind, Py_bind. rewrite Hpub.
  unfold sync_phase. rewrite HT2, Hf2, Ht1. split.
  - intros ->. cbn. by eexists.
  - intros Hpos. by destruct (Z.ltb_spec 0 (run.t (frame m))); [|lia].
Qed.

(** ** What an iteration touches *)

Lemma play_phase_frame (np_empty : Screen) (m m' : machine) :
  play_phase np_empty m = inr m' ->
  _connect (self m') = _connect (self m) /\
  _policy_net (self m') = _policy_net (self m) /\
  _batch_size (self m') = _batch_size (self m) /\
  run.t (frame m') = run.t (frame m).
Proof.
  intros Hp. apply play_phase_inv in Hp as (mem & _ & He).
  pose proof (interact_frame np_empty m) as (_ & HB & _ & _ & _ & Hnet & _ & Hc & _).
  apply episode_end_frame in He as (_ & -> & -> & -> & ->). cbn. by rewrite Hc, Hnet, HB.
Qed.

(** X10: an iteration of the loop never writes a string value of the
    server and never touches a list other than [experience]; the list
    [experience] is either left as it is or gets exactly one record
    appended at its right end. *)
Theorem loop_only_appends_experience (np_empty : Screen) (m m' : machine) :
  loop_body np_empty m = inr m' ->
  let before := _connect (self m) in
  let after := _connect (self m') in
  kv after = kv before /\
  (forall key, key <> "experience" -> queues after !! key = queues before !! key) /\
  (after = before \/
   exists record,
     queues after !! "experience" =
     Some (default [] (queues before !! "experience") ++ [record])).
Proof.
  intros Hl. unfold loop_body in Hl. py_inv Hl. subst m'. cbn.
  apply play_phase_frame in E as (Hc1 & _).
  assert (_connect (self (m2)) = _connect (self m1)) as Hc3.
  { apply sync_phase_inv in E1 as [->| ->]; [done|]. cbn.
    by pose proof (_pull_params_frame (self m1)) as (_ & _ & _ & _ & _ & _ & _ & _ & _ & ->). }
  rewrite Hc3.
  apply publish_phase_inv in E0 as [(_ & samples & g & gamma & _ & _ & ->)|(_ & ->)].
  - cbn. rewrite Hc1. split; [done|]. split.
    + intros key Hkey. by apply lookup_insert_ne.
    + right. eexists. apply lookup_insert_eq.
  - rewrite Hc1. split; [done|]. split; [done|by left].
Qed.


(** X12: the policy network of an actor made by [__init__] is in
    evaluation mode in every state of its run: [__init__] switches it and
    a parameter pull keeps the mode. *)
Theorem policy_net_stays_in_eval_mode (actor_no : Z) (env : Env)
    (policy_net : Net StateDict) (connect : Redis) (batch_size : Z) (nstep_return : nat)
    (gamma : F) (buf_size : nat) (clip : F -> F) (target_update num_total_actors : Z)
    (pc : PC) (m : machine) :
  reachable (Actor_init actor_no env policy_net connect batch_size nstep_return gamma
               buf_size clip target_update num_total_actors) pc m ->
  training (_policy_net (self m)) = false.
Proof.
  induction 1 as [g m Hs|np m m' Hr IH Hp|m m' Hr IH Hp|m m' Hr IH Hs|pc r m _ IH].
  - apply run_start_inversion in Hs as (_ & Hs). by subst m.
  - apply play_phase_frame in Hp as (_ & -> & _). done.
  - by apply publish_phase_inv in Hp as [(_ & ? & ? & ? & _ & _ & ->)|(_ & ->)].
  - apply sync_phase_inv in Hs as [->| ->]; [done|]. cbn.
    unfold _pull_params. by destruct (redis_get _ _).
  - done.
Qed.

(** ** The capacity of the local memory *)

Lemma rm_push_within_capacity (mem : ReplayMemory F) (x : Transition F) :
  (length (memory mem) <= capacity mem)%nat ->
  (length (memory (rm_push mem x)) <= capacity mem)%nat.
Proof.
  intros Hle. unfold rm_push. cbv zeta. cbn [memory].
  destruct (Nat.ltb_spec (capacity mem) (length (memory mem ++ [x]))) as [Hlt|Hge];
    [rewrite length_drop|]; rewrite length_app in *; cbn [length] in *; lia.
Qed.

Lemma reachable_within_capacity (a0 : actor) (pc : PC) (m : machine) :
  (length (memory (_local_memory a0)) <= capacity (_local_memory a0))%nat ->
  reachable a0 pc m ->
  (length (memory (_local_memory (self m))) <= capacity (_local_memory a0))%nat.
Proof.
  intros H0.
  induction 1 as [g m Hs|np m m' Hr IH Hp|m m' Hr IH Hp|m m' Hr IH Hs|pc r m _ IH].
  - apply run_start_inversion in Hs as (_ & Hs). by subst m.
  - pose proof (inv_capacity _ _ (reachable_run_inv _ _ _ Hr)) as Hcap.
    apply play_phase_inv in Hp as (mem & Hmem & He).
    pose proof (interact_frame np m) as (_ & _ & _ & _ & _ & _ & Hlm & _).
    apply episode_end_frame in He as (-> & _). cbn. rewrite Hlm in Hmem.
    apply nstep_emit_inv in Hmem as [->|[x ->]]; [done|].
    rewrite <- Hcap. apply rm_push_within_capacity. by rewrite Hcap.
  - apply publish_phase_inv in Hp as [(_ & ? & ? & ? & _ & _ & ->)|(_ & ->)]; [|done].
    cbn. lia.
  - apply sync_phase_inv in Hs as [->| ->]; [done|]. cbn.
    by pose proof (_pull_params_frame (self m)) as (_ & _ & _ & _ & _ & _ & _ & _ & -> & _).
  - done.
Qed.

(** X13: the local memory of an actor made by [__init__] never holds more
    than 1000 transitions; with a batch size above 1000 the publish test
    never succeeds, so the actor never pushes a record. *)
Theorem oversized_batch_never_published (actor_no : Z) (env : Env)
    (policy_net : Net StateDict) (connect : Redis) (batch_size : Z) (nstep_return : nat)
    (gamma : F) (buf_size : nat) (clip : F -> F) (target_update num_total_actors : Z)
    (pc : PC) (m : machine) :
  reachable (Actor_init actor_no env policy_net connect batch_size nstep_return gamma
               buf_size clip target_update num_total_actors) pc m ->
  (rm_len (_local_memory (self m)) <= 1000)%Z /\
  ((1000 < batch_size)%Z -> publish_phase m = inr m).
Proof.
  intros Hreach.
  pose proof (reachable_within_capacity
                (Actor_init actor_no env policy_net connect batch_size nstep_return gamma
                   buf_size clip target_update num_total_actors)
                pc m (Nat.le_0_l 1000) Hreach) as Hcap.
  cbn [Actor_init _local_memory rm_new capacity] in Hcap. unfold rm_len. split; [lia|]. intros Hbig.
  pose proof (inv_batch_size _ _ (reachable_run_inv _ _ _ Hreach)) as HB. cbn in HB.
  unfold publish_phase, rm_len. rewrite HB.
  by destruct (Z.leb_spec batch_size (Z.of_nat (length (memory (_local_memory (self m))))));
    [lia|].
Qed.

(** ** The transitions of the window *)

Lemma deque_append_full {A : Type} (d : deque A) (x : A) :
  length (items d) = maxlen d -> items (deque_append d x) = drop 1 (items d ++ [x]).
Proof.
  intros Hfull. unfold deque_append. cbv zeta. cbn [items].
  destruct (Nat.ltb_spec (maxlen d) (length (items d ++ [x]))) as [_|Hge]; [done|].
  rewrite length_app in Hge. cbn in Hge. lia.
Qed.

(** X16: the two states of a recorded transition overlap: the next state
    is the state without its oldest tile, followed by the tile of the
    decision step; both are frame stacks of [K] tiles. *)
Theorem recorded_states_slide (a0 : actor) (np_empty : Screen) (m : machine) :
  let a := fst (epsilon_greedy (run.state (frame m)) (_policy_net (self m))
                  (run.eps (frame m)) (rng m)) in
  let e := _env (self m) in
  reachable a0 LoopHead m ->
  exists tr,
    i_step_buffer (interact np_empty m) = deque_append (run.step_buffer (frame m)) tr /\
    state tr = items (_img_buf (self m)) /\
    next_state tr =
      drop 1 (state tr ++ [preproc_state (frame_at a 3 e, frame_at a 4 e)]) /\
    length (state tr) = maxlen (_img_buf a0) /\
    length (next_state tr) = maxlen (_img_buf a0).
Proof.
  intros a e Hreach. pose proof (reachable_run_inv _ _ _ Hreach) as Hinv.
  pose proof (interact_spec np_empty m) as (_ & _ & _ & Hbuf & Hns & Hsb).
  eexists. split; [exact Hsb|]. cbn [state next_state].
  pose proof (inv_state _ _ Hinv) as Hst. pose proof (inv_stack_full _ _ Hinv) as Hfull.
  pose proof (inv_img_maxlen _ _ Hinv) as Hmax.
  split; [done|]. rewrite Hns, Hbuf, deque_append_full by lia.
  rewrite <- Hst. split; [done|]. rewrite Hst. split; [lia|].
  rewrite length_drop, length_app. cbn. lia.
Qed.

(** X17: in every state of a run no transition of the window is
    terminal: a decision step whose done flag is set empties the window
    before the next one.  So of the raw transitions behind an n-step
    transition only the last can be terminal. *)
Theorem window_holds_no_terminal (a0 : actor) (pc : PC) (m : machine) :
  reachable a0 pc m ->
  Forall (fun tr => done tr = false) (items (run.step_buffer (frame m))).
Proof.
  induction 1 as [g m Hs|np m m' Hr IH Hp|m m' Hr IH Hp|m m' Hr IH Hs|pc r m _ IH].
  - apply run_start_inversion in Hs as (_ & Hs). subst m. by cbn.
  - apply play_phase_inv in Hp as (mem & _ & He).
    pose proof (interact_spec np m) as (_ & _ & Hd & _ & _ & Hsb).
    apply episode_end_inv in He as [(_ & _ & ->)|(Hend & ->)]; cbn; [done|].
    apply orb_false_elim in Hend as [Hdone _].
    apply Forall_forall. intros tr Htr. rewrite Hsb in Htr.
    apply deque_append_elem in Htr as [Hold| ->].
    + revert tr Hold. by apply Forall_forall.
    + cbn. by rewrite <- Hd.
  - by apply publish_phase_inv in Hp as [(_ & ? & ? & ? & _ & _ & ->)|(_ & ->)].
  - by apply sync_phase_inv in Hs as [->| ->].
  - done.
Qed.

End MoreFacts.

(** ** The spread of the exploration rates *)

Lemma Rpower_decreasing_exponent (b x y : R) :
  (0 < b < 1)%R -> (x < y)%R -> (Rpower b y < Rpower b x)%R.
Proof.
  intros [Hb0 Hb1] Hxy. unfold Rpower. apply exp_increasing.
  pose proof (ln_increasing b 1 Hb0 Hb1) as Hln. rewrite ln_1 in Hln. nra.
Qed.

Lemma eps_exponent_increasing (a a' n : Z) :
  (2 <= n)%Z -> (a < a')%Z ->
  (1 + (IZR a - 1) / (IZR n - 1) * 7.0 < 1 + (IZR a' - 1) / (IZR n - 1) * 7.0)%R.
Proof.
  intros Hn Ha. apply IZR_le in Hn. apply IZR_lt in Ha.
  assert (0 < / (IZR n - 1))%R as Hinv by (apply Rinv_0_lt_compat; lra).
  unfold Rdiv. nra.
Qed.

(** X14: in real arithmetic and for a fleet of at least two actors, the
    exploration rate strictly decreases with the actor number; it is 0.4
    for actor 1 and [0.4 ** 8] for the last actor, so every actor with a
    number from 1 to the fleet size explores at a rate between these
    two. *)
Theorem exploration_rate_spread (n : Z) :
  (2 <= n)%Z ->
  (forall a a', (a < a')%Z ->
     (exploration_rate (F:=R) a' n < exploration_rate (F:=R) a n)%R) /\
  exploration_rate (F:=R) 1 n = 0.4%R /\
  exploration_rate (F:=R) n n = (0.4 ^ 8)%R /\
  (forall a, (1 <= a <= n)%Z ->
     (0.4 ^ 8 <= exploration_rate (F:=R) a n <= 0.4)%R).
Proof.
  intros Hn.
  assert (forall a a', (a < a')%Z ->
            (exploration_rate (F:=R) a' n < exploration_rate (F:=R) a n)%R) as Hdec.
  { intros a a' Ha. rewrite !eps_real_formula by lia.
    apply Rpower_decreasing_exponent; [lra|]. by apply eps_exponent_increasing. }
  assert (exploration_rate (F:=R) 1 n = 0.4%R) as Hfirst.
  { rewrite eps_real_formula by lia.
    replace (1 + (1 - 1) / (IZR n - 1) * 7.0)%R with 1%R by (unfold Rdiv; lra).
    apply Rpower_1. lra. }
  assert (exploration_rate (F:=R) n n = (0.4 ^ 8)%R) as Hlast.
  { rewrite eps_real_formula by lia. pose proof (IZR_le _ _ Hn) as HnR.
    assert ((IZR n - 1) / (IZR n - 1) = 1)%R as -> by (apply Rdiv_diag; lra).
    replace (1 + 1 * 7.0)%R with (INR 8) by (simpl; lra).
    apply Rpower_pow. lra. }
  split; [done|]. split; [done|]. split; [done|].
  intros a [Hlo Hhi]. split.
  - destruct (Z.eq_dec a n) as [->|Hne]; [lra|].
    rewrite <- Hlast. left. apply Hdec. lia.
  - destruct (Z.eq_dec a 1%Z) as [->|Hne]; [lra|].
    rewrite <- Hfirst. left. apply Hdec. lia.
Qed.

(** ** The launcher *)


(** ** The further properties on the small instance *)

Lemma toy_reach_h0 : reachable Toy.actor_no_horizon LoopHead Toy.h0.
Proof. apply (reach_start _ 7%N). cbv -[np_zeros]. reflexivity. Qed.

Lemma toy_reach_s0 : reachable Toy.actor_no_sync LoopHead Toy.s0.
Proof. apply (reach_start _ 7%N). cbv -[np_zeros]. reflexivity. Qed.

Lemma toy_reach_s1 : reachable Toy.actor_no_sync LoopHead Toy.s1.
Proof.
  apply (reach_loop_body _ Toy.junk Toy.s0); [exact toy_reach_s0|].
  vm_compute. reflexivity.
Qed.

Lemma toy_fltb_asymmetric : fltb_asymmetric (HF:=Q_float).
Proof.
  intros u v. cbn. rewrite negb_true_iff, negb_false_iff. intros Huv.
  apply Qle_bool_iff. destruct (Qlt_le_dec v u) as [Hlt|Hle].
  - apply Qlt_le_weak in Hlt. apply Qle_bool_iff in Hlt. congruence.
  - done.
Qed.

(** X2 on the rationals: 5 is clipped to 1. *)
Lemma default_clip_range_witness :
  fle (flit (-1)) (default_clip (5 : Q)) /\ fle (default_clip (5 : Q)) (flit 1).
Proof.
  destruct (default_clip_range (5 : Q) toy_fltb_asymmetric eq_refl) as (Hlo & Hhi & _).
  split; [exact Hlo|exact Hhi].
Defined.

(** X3 on two frames of two pixels. *)
Lemma preproc_state_max_of_pair_witness :
  exists z, amax_dstack [Byte.x01; Byte.x09] [Byte.x05; Byte.x02] !! 1%nat = Some z /\
            Byte.to_N z = N.max 9 2.
Proof.
  destruct (preproc_state_max_of_pair (HF:=Q_float) (HL:=Toy.libs)
              [Byte.x01; Byte.x09] [Byte.x05; Byte.x02]) as (_ & _ & Hmax).
  exact (Hmax 1%nat Byte.x09 Byte.x02 eq_refl eq_refl).
Defined.

(** X4 before the publish test of the third iteration of [Toy.actor0]. *)
Lemma counters_invariant_witness :
  (run.length_epsiode (frame Toy.m2_played) mod 4 = 0)%Z /\
  run.sum_rwd (frame Toy.m2_played) = 0%Z.
Proof.
  destruct (counters_invariant Toy.actor0 BeforePublish Toy.m2_played toy_reach_m2_played)
    as (_ & Hmod & _ & _ & _ & Hsum).
  split; [exact Hmod|exact Hsum].
Defined.

(** X5 on the first decision step of [Toy.actor0], whose horizon is 2. *)
Lemma emission_needs_full_window_witness :
  _local_memory (self (Toy.get Toy.stuck (play_phase Toy.junk Toy.m0))) =
  _local_memory (self Toy.m0).
Proof.
  apply (emission_needs_full_window Toy.actor0 Toy.junk Toy.m0
           (Toy.get Toy.stuck (play_phase Toy.junk Toy.m0)) toy_reach_m0).
  - vm_compute. reflexivity.
  - vm_compute. reflexivity.
Defined.

(** X6 at the head of the third iteration of [Toy.actor0]. *)
Lemma window_is_chained_witness :
  chained (items (run.step_buffer (frame Toy.m2))).
Proof. apply (window_is_chained Toy.actor0 LoopHead Toy.m2 toy_reach_m2). Defined.

(** X7 on [Toy.actor0]. *)
Lemma loop_never_raises_witness :
  exists m', loop_body Toy.junk Toy.m2 = inr m' /\ reachable Toy.actor0 LoopHead m'.
Proof.
  assert (0 < 2)%nat as HN by lia.
  assert (0 <= 2)%Z as HB by lia.
  assert (2 <> 0)%Z as HT by lia.
  destruct (loop_never_raises 1 0%nat (mkNet [] true) Toy.server 2 2 (1 # 2) 2
              default_clip 2 4 HN HB HT) as (_ & _ & Hloop).
  destruct (Hloop Toy.junk Toy.m2 toy_reach_m2) as (m' & Hl & Hr & _).
  exists m'. split; [exact Hl|exact Hr].
Defined.

(** X8 on the first decision step of [Toy.actor_no_horizon]. *)
Lemma zero_horizon_raises_witness :
  loop_body Toy.junk Toy.h0 = inl IndexError.
Proof.
  apply (zero_horizon_raises Toy.actor_no_horizon Toy.junk Toy.h0 eq_refl toy_reach_h0).
Defined.

(** X9 on the second iteration of [Toy.actor_no_sync]. *)
Lemma zero_sync_period_raises_witness :
  loop_body Toy.junk Toy.s1 = inl ZeroDivisionError.
Proof.
  assert (0 < 2)%nat as HN by lia.
  assert (0 <= 2)%Z as HB by lia.
  apply (zero_sync_period_raises 1 0%nat (mkNet [] true) Toy.server 2 2 (1 # 2) 2
           default_clip 4 Toy.junk Toy.s1 HN HB toy_reach_s1).
  vm_compute. reflexivity.
Defined.

(** X10 on the third iteration of [Toy.actor0], which publishes. *)
Lemma loop_only_appends_experience_witness :
  kv (_connect (self (Toy.get Toy.stuck (loop_body Toy.junk Toy.m2)))) =
  kv (_connect (self Toy.m2)).
Proof.
  apply (loop_only_appends_experience Toy.junk Toy.m2
           (Toy.get Toy.stuck (loop_body Toy.junk Toy.m2))).
  vm_compute. reflexivity.
Defined.


(** X12 on the run of [Toy.actor0], made from a network in training mode. *)
Lemma policy_net_stays_in_eval_mode_witness :
  training (_policy_net (self Toy.m2_played)) = false.
Proof.
  apply (policy_net_stays_in_eval_mode 1 0%nat (mkNet [] true) Toy.server 2 2 (1 # 2) 2
           default_clip 2 4 BeforePublish Toy.m2_played toy_reach_m2_played).
Defined.

(** X13 on the run of [Toy.actor0]. *)
Lemma oversized_batch_never_published_witness :
  (rm_len (_local_memory (self Toy.m2_played)) <= 1000)%Z.
Proof.
  apply (oversized_batch_never_published 1 0%nat (mkNet [] true) Toy.server 2 2 (1 # 2) 2
           default_clip 2 4 BeforePublish Toy.m2_played toy_reach_m2_played).
Defined.

(** X14 for a fleet of 4: actor 3 explores less than actor 2. *)
Lemma exploration_rate_spread_witness :
  (exploration_rate (F:=R) 3 4 < exploration_rate (F:=R) 2 4)%R.
Proof.
  assert (2 <= 4)%Z as Hn by lia.
  destruct (exploration_rate_spread 4 Hn) as (Hdec & _).
  apply Hdec. lia.
Defined.


(** X16 on the second decision step of [Toy.actor0]. *)
Lemma recorded_states_slide_witness :
  exists tr : Transition Q,
    i_step_buffer (interact Toy.junk Toy.m1) =
      deque_append (run.step_buffer (frame Toy.m1)) tr /\
    length (next_state tr) = 2%nat.
Proof.
  destruct (recorded_states_slide Toy.actor0 Toy.junk Toy.m1 toy_reach_m1)
    as (tr & Hsb & _ & _ & _ & Hlen).
  exists tr. split; [exact Hsb|exact Hlen].
Defined.

(** X17 at the head of the third iteration of [Toy.actor0]. *)
Lemma window_holds_no_terminal_witness :
  Forall (fun tr : Transition Q => done tr = false)
    (items (run.step_buffer (frame Toy.m2))).
Proof. exact (window_holds_no_terminal Toy.actor0 LoopHead Toy.m2 toy_reach_m2). Defined.

(** ** The tile of a decision step *)

(** C9: a decision step takes exactly four environment steps, all with the
    action chosen for it, and the tile it appends to the frame stack is
    the resized and scaled pixel-wise maximum of the frames shown after
    the third and the fourth of them: at every place the pixel that is
    resized is the larger of the pixels of the two frames.  The frames
    shown after the first two steps and the uninitialised contents of
    [screen_temp] do not reach the tile: an environment that shows other
    frames there, but the same frames after steps three and four, leaves
    the same frame stack. *)
Theorem tile_from_last_two_frames {F Env Rng StateDict : Type}
    {HF : PyFloat F} {HR : Entropy Rng} {HL : Libs F Rng StateDict}
    (E E' : GymEnv Env F) (np_empty np_empty' : Screen)
    (m : Machine F Env Rng StateDict) :
  let a := fst (epsilon_greedy (run.state (frame m)) (_policy_net (self m))
                  (run.eps (frame m)) (rng m)) in
  let e := _env (self m) in
  let i := interact (HE:=E) np_empty m in
  let f3 := frame_at (HE:=E) a 3 e in
  let f4 := frame_at (HE:=E) a 4 e in
  (_env (i_self i) = env_after (HE:=E) a 4 e /\
   i_length_epsiode i = (run.length_epsiode (frame m) + 4)%Z /\
   _img_buf (i_self i) =
     deque_append (_img_buf (self m))
       (map (fun v => fdiv (f32 v) (flit 255)) (resize (amax_dstack f3 f4)))) /\
  (length (amax_dstack f3 f4) = Nat.min (length f3) (length f4) /\
   forall j x y, f3 !! j = Some x -> f4 !! j = Some y ->
     exists z, amax_dstack f3 f4 !! j = Some z /\
               Byte.to_N z = N.max (Byte.to_N x) (Byte.to_N y)) /\
  (frame_at (HE:=E') a 3 e = f3 ->
   frame_at (HE:=E') a 4 e = f4 ->
   _img_buf (i_self (interact (HE:=E') np_empty' m)) = _img_buf (i_self i)).
Proof.
  intros a e i f3 f4.
  pose proof (interact_spec (HE:=E) np_empty m) as (He & Hl & _ & Hbuf & _).
  pose proof (interact_spec (HE:=E') np_empty' m) as (_ & _ & _ & Hbuf' & _).
  split; [by repeat split|]. split.
  - split; [apply length_zip_with|].
    intros j x y Hx Hy. exists (byte_max x y). split; [|apply byte_max_spec].
    unfold amax_dstack. apply lookup_zip_with_Some. by exists x, y.
  - intros H3 H4. subst i. rewrite Hbuf, Hbuf'. subst a e f3 f4. by rewrite H3, H4.
Qed.

(** C9 on the first decision step of [Toy.actor0]: the environment shows
    the pixels 11, 22 and then 12, 24, the tile is 12/255, 24/255, and the
    dark screen of the first sub-steps changes nothing. *)
Lemma tile_from_last_two_frames_witness :
  _img_buf (i_self (interact (HE:=Toy.env_dark) ([Byte.xff], []) Toy.m0)) =
  _img_buf (i_self (interact (HE:=Toy.env) Toy.junk Toy.m0)) /\
  last (items (_img_buf (i_self (interact (HE:=Toy.env) Toy.junk Toy.m0)))) =
  Some [12 # 255; 24 # 255]%Q.
Proof.
  destruct (tile_from_last_two_frames Toy.env Toy.env_dark Toy.junk ([Byte.xff], [])
              Toy.m0) as ((_ & _ & Hbuf) & _ & Hsame).
  split.
  - apply Hsame; vm_compute; reflexivity.
  - rewrite Hbuf. vm_compute. reflexivity.
Defined.

(** ** Where two claims fail as they are stated *)

(** C7 fails as stated: in the run of [Toy.actor0] the environment reports
    done on the second sub-step of the first decision step; the step does
    not reset the episode: the window keeps its transition, the episode
    count stays 0, the step counter goes to 4 and the environment goes on
    from the state after the four sub-steps. *)
Lemma terminal_on_second_sub_step_no_reset :
  let a := fst (epsilon_greedy (run.state (frame Toy.m0)) (_policy_net (self Toy.m0))
                  (run.eps (frame Toy.m0)) (rng Toy.m0)) in
  let m' := Toy.get Toy.stuck (play_phase Toy.junk Toy.m0) in
  done_at a 2 (_env (self Toy.m0)) = true /\
  play_phase Toy.junk Toy.m0 = inr m' /\
  length (items (run.step_buffer (frame m'))) = 1%nat /\
  run.n_episode (frame m') = 0%Z /\
  run.length_epsiode (frame m') = 4%Z /\
  _env (self m') = env_after a 4 (_env (self Toy.m0)).
Proof. vm_compute. repeat split. Qed.

(** C10 fails as stated: the actor [Toy.actor_no_batch], made by
    [__init__] with batch size 0, reaches the publish test with one
    transition in its local memory, more than the batch size; the publish
    step samples nothing and clears the memory, so that transition is
    dropped without having been sampled. *)
Lemma zero_batch_exceeds_and_drops :
  reachable Toy.actor_no_batch BeforePublish Toy.b0_played /\
  _batch_size (self Toy.b0_played) = 0%Z /\
  rm_len (_local_memory (self Toy.b0_played)) = 1%Z /\
  fst (Toy.get ([], 0%N)
         (rm_sample (_local_memory (self Toy.b0_played)) 0 (rng Toy.b0_played))) = [] /\
  exists m', publish_phase Toy.b0_played = inr m' /\
             memory (_local_memory (self m')) = [].
Proof.
  split.
  - apply (reach_play _ Toy.junk Toy.b0).
    + apply (reach_start _ 7%N). cbv -[np_zeros]. reflexivity.
    + vm_compute. reflexivity.
  - split; [vm_compute; reflexivity|]. split; [vm_compute; reflexivity|].
    split; [vm_compute; reflexivity|].
    exists (Toy.get Toy.stuck (publish_phase Toy.b0_played)).
    split; vm_compute; reflexivity.
Qed.
